(** * The notebooks' reference functions, embedded and verified

    The notebooks of this repository define a handful of small Python
    functions (the "challenge" reference solutions and the demonstrations
    of closures, default arguments and keyword-only arguments).  Each one
    is translated below from its code cell.

    Python objects that are mutated or shared (lists, sets, dictionaries,
    closure cells) live in a store and are passed around by location, so
    that "returns a new list", "leaves its argument unchanged" and "the
    same list object" are statements about the store.  Immutable values
    (integers, strings, tuples) are plain Rocq values. *)

From Stdlib Require Import ZArith Lia Floats Ascii.
From stdpp Require Import gmap strings list fin_maps sorting.

Local Open Scope string_scope.
Local Open Scope Z_scope.
Local Open Scope list_scope.

#[local] Set Warnings "-inexact-float,-clear-no-such-hyp".

(** ** Exceptions and outcomes *)

(** The exceptions the modelled cells can raise.  [Dangling] and
    [OutOfFuel] are not Python exceptions: the first is the outcome of
    reading a location outside the store (no Python reference is ever in
    that state), the second the outcome of a loop that was given too few
    steps. *)
Inductive exn :=
  | KeyError (key : string)
  | TypeError
  | AttributeError
  | ValueError
  | Dangling
  | OutOfFuel.

Inductive result (S A : Type) :=
  | Ok (a : A) (s : S)
  | Raise (e : exn).
Arguments Ok {S A} a s.
Arguments Raise {S A} e.

(** ** The object store *)

Module Store.

(** A location is the index of an object in the store; objects are
    never freed, and a new object goes to the end. *)
Definition loc := nat.

Section Store.
Variable Obj : Type.

Definition heap := list Obj.

(** A program takes the store and ends with a value and the new store,
    or with an exception. *)
Definition M (A : Type) : Type := heap → result heap A.

#[global] Instance M_ret : MRet M := λ A a h, Ok a h.

#[global] Instance M_bind : MBind M :=
  λ A B k m h,
    match m h with
    | Ok a h' => k a h'
    | Raise e => Raise e
    end.

Definition raise {A} (e : exn) : M A := λ _, Raise e.

Definition alloc (o : Obj) : M loc := λ h, Ok (length h) (h ++ [o]).

Definition read (l : loc) : M Obj :=
  λ h, match h !! l with
       | Some o => Ok o h
       | None => Raise Dangling
       end.

Definition write (l : loc) (o : Obj) : M unit :=
  λ h, match h !! l with
       | Some _ => Ok tt (<[l:=o]> h)
       | None => Raise Dangling
       end.

(** [for x in <list at l>: body x].  Python's list iterator keeps an
    index into the live list object and reads it again at every
    step, so the loop sees what its body does to that list.  [elems]
    gives the items of a list object; the loops of the notebooks run
    over lists only, and on another object the model raises
    [TypeError]. *)
Fixpoint for_in {X} (fuel : nat) (elems : Obj → option (list X))
    (l : loc) (i : nat) (body : X → M unit) : M unit :=
  match fuel with
  | O => raise OutOfFuel
  | S fuel' =>
      o ← read l;
      match elems o with
      | None => raise TypeError
      | Some xs =>
          match xs !! i with
          | None => mret tt
          | Some x => body x;; for_in fuel' elems l (S i) body
          end
      end
  end.

(** Every object of [h] is in [h'], unchanged. *)
Definition unchanged (h h' : heap) : Prop :=
  ∀ l o, h !! l = Some o → h' !! l = Some o.

(** [l] is a location that [h] has not allocated. *)
Definition fresh (h : heap) (l : loc) : Prop := h !! l = None.

End Store.

Arguments unchanged {Obj} h h'.
Arguments fresh {Obj} h l.
Arguments raise {Obj A} e.
Arguments alloc {Obj} o.
Arguments read {Obj} l.
Arguments write {Obj} l o.
Arguments for_in {Obj X} fuel elems l i body.

End Store.

Import Store.

(** ** Cells without stored objects *)

(** A cell that shares no mutable object runs in the exception monad
    [exn + A]. *)
#[global] Instance exn_ret : MRet (sum exn) := λ A a, inr a.

#[global] Instance exn_bind : MBind (sum exn) :=
  λ A B k m,
    match m with
    | inr a => k a
    | inl e => inl e
    end.

(** [try: body except <handles> as e: handler e] *)
Definition try_except {A} (body : exn + A) (handles : exn → bool)
    (handler : exn → exn + A) : exn + A :=
  match body with
  | inr a => inr a
  | inl e => if handles e then handler e else inl e
  end.

Definition is_KeyError (e : exn) : bool :=
  match e with KeyError _ => true | _ => false end.


(** [print(text)] in a cell that runs in the store: standard output is
    not part of the model; what is kept of the statement is the
    evaluation of its argument, which can raise. *)
Definition print {Obj : Type} (text : exn + string) : M Obj unit :=
  λ h, match text with
       | inl e => Raise e
       | inr _ => Ok tt h
       end.

(** ** Sets notebook: [compare_features] *)

Module Sets.

(** The objects of this notebook: lists of feature names ([List[str]])
    and sets of them ([Set[str]]). *)
Inductive obj :=
  | OList (xs : list string)
  | OSet (s : gset string).

(** The items an iterable yields, as a set. *)
Definition items (o : obj) : gset string :=
  match o with
  | OList xs => list_to_set xs
  | OSet s => s
  end.

(** [set(iterable)]: a new set object. *)
Definition set (iterable : loc) : M obj loc :=
  o ← read iterable;
  alloc (OSet (items o)).

(** [a.intersection(b)]: a new set object; [a] has to be a set. *)
Definition intersection (a b : loc) : M obj loc :=
  oa ← read a;
  ob ← read b;
  match oa with
  | OSet sa => alloc (OSet (sa ∩ items ob))
  | OList _ => raise AttributeError
  end.

(** [a.difference(b)]: a new set object; [a] has to be a set. *)
Definition difference (a b : loc) : M obj loc :=
  oa ← read a;
  ob ← read b;
  match oa with
  | OSet sa => alloc (OSet (sa ∖ items ob))
  | OList _ => raise AttributeError
  end.

Definition compare_features (version1_features version2_features : loc)
    : M obj (loc * loc * loc) :=
  set_v1 ← set version1_features;
  set_v2 ← set version2_features;
  common_features ← intersection set_v1 set_v2;
  unique_to_v1 ← difference set_v1 set_v2;
  unique_to_v2 ← difference set_v2 set_v1;
  mret (common_features, unique_to_v1, unique_to_v2).

(** The test data of the cell. *)
Definition features_v1 : list string :=
  ["login"; "search"; "profile"; "upload"; "report"; "search"].
Definition features_v2 : list string :=
  ["login"; "search"; "dashboard"; "profile"; "export"; "login"].

(** The store the cell calls [compare_features] in: the two lists. *)
Definition features_store : heap obj := [OList features_v1; OList features_v2].

(** [compare_features] on the lists at [v1] and [v2] ends normally and
    the three locations it returns hold the sets [c], [u1] and [u2]. *)
Definition compare_features_returns (h : heap obj) (v1 v2 : loc)
    (c u1 u2 : gset string) : Prop :=
  ∃ common unique1 unique2 h',
    compare_features v1 v2 h = Ok (common, unique1, unique2) h'
    ∧ h' !! common = Some (OSet c)
    ∧ h' !! unique1 = Some (OSet u1)
    ∧ h' !! unique2 = Some (OSet u2).

End Sets.

(** ** Tuple notebook: [filter_passing_students] *)

Module Tuples.

(** [StudentDataTuple = Tuple[str, int, float]]: an immutable value.
    Python's [float] is the IEEE 754 binary64 type. *)
Definition StudentDataTuple : Type := string * Z * float.

(** The objects of this cell are lists of student tuples. *)
Definition obj : Type := list StudentDataTuple.

(** [target.append(x)] *)
Definition append (target : loc) (x : StudentDataTuple) : M obj unit :=
  xs ← read target;
  write target (xs ++ [x]).

(** [passing_grade] is [None] when the caller leaves it out; the
    default is the float [60.0]. *)
Definition filter_passing_students (fuel : nat) (students : loc)
    (passing_grade : option float) : M obj loc :=
  let passing_grade := default 60%float passing_grade in
  passing_students ← alloc [];
  for_in fuel Some students 0 (λ student_tuple,
    let '(name, student_id, score) := student_tuple in
    if PrimFloat.leb passing_grade score
    then append passing_students student_tuple
    else mret tt);;
  mret passing_students.

(** Whether a student passes: the condition of the loop, [score >=
    passing_grade], with the default filled in. *)
Definition passes (passing_grade : option float) (s : StudentDataTuple)
    : bool :=
  PrimFloat.leb (default 60%float passing_grade) s.2.

(** The student tuples the cell passes in (the output of
    [convert_to_tuples] as the notebook records it). *)
Definition student_tuples : list StudentDataTuple :=
  [("Alice", 101, 88.5%float); ("Bob", 102, 55%float);
   ("Charlie", 103, 92%float); ("David", 104, 59.9%float);
   ("Eve", 105, 75%float); ("Frank", 106, 65%float)].

(** [filter_passing_students] on the list at [students] ends normally
    and the location it returns holds the list [ys]. *)
Definition filter_passing_students_returns (h : heap obj) (fuel : nat)
    (students : loc) (passing_grade : option float)
    (ys : list StudentDataTuple) : Prop :=
  ∃ passing_students h',
    filter_passing_students fuel students passing_grade h
      = Ok passing_students h'
    ∧ h' !! passing_students = Some ys.

End Tuples.

(** ** Values of type [Any] *)

(** The scalar values the notebooks store in dictionaries and pass as
    arguments. *)
Inductive value :=
  | VNone
  | VBool (b : bool)
  | VInt (n : Z)
  | VStr (s : string).

#[global] Instance value_eq_dec : EqDecision value.
Proof. solve_decision. Defined.

(** ** Dictionary notebook: access, and [analyze_logs] *)

Module Dictionary.

(** *** Accessing a [Dict[str, Any]] *)

(** [d[k]] *)
Definition getitem (d : gmap string value) (k : string) : exn + value :=
  match d !! k with
  | Some v => inr v
  | None => inl (KeyError k)
  end.

(** [d.get(k)] and [d.get(k, default)]; [default] is [None] when the
    caller leaves it out. *)
Definition get (d : gmap string value) (k : string) (default : option value)
    : value :=
  match d !! k with
  | Some v => v
  | None => match default with Some v => v | None => VNone end
  end.

Definition settings : gmap string value :=
  <["autosave" := VBool true]>
    (<["fontSize" := VInt 12]> (<["theme" := VStr "dark"]> ∅)).

(** The variables the access cell has bound when it ends.
    [font_family_in_try] is the binding made inside the [try] block, if
    the block got that far. *)
Record access_cell_vars := {
  current_theme : value;
  font_family_in_try : option value;
  font_size : value;
  font_family : value;
  font_family_defaulted : value
}.

(** The access cell, statement by statement ([print] left out). *)
Definition access_cell : exn + access_cell_vars :=
  current_theme ← getitem settings "theme";
  font_family_in_try ←
    try_except
      (font_family ← getitem settings "fontFamily"; mret (Some font_family))
      is_KeyError
      (λ e, mret None);
  let font_size := get settings "fontSize" None in
  let font_family := get settings "fontFamily" None in
  let default_font := VStr "Monospace" in
  let font_family_defaulted := get settings "fontFamily" (Some default_font) in
  mret {| current_theme := current_theme;
          font_family_in_try := font_family_in_try;
          font_size := font_size;
          font_family := font_family;
          font_family_defaulted := font_family_defaulted |}.

(** *** [analyze_logs] *)

(** A dictionary key.  Python compares keys with [==] and [hash], for
    which [True] is [1] and [False] is [0]; [key_of] gives the key a
    value stands for. *)
Inductive key :=
  | KNone
  | KInt (n : Z)
  | KStr (s : string).

Definition key_of (v : value) : key :=
  match v with
  | VNone => KNone
  | VBool b => KInt (if b then 1 else 0)
  | VInt n => KInt n
  | VStr s => KStr s
  end.

#[global] Instance key_eq_dec : EqDecision key.
Proof. solve_decision. Defined.

#[global] Instance key_countable : Countable key.
Proof.
  refine (inj_countable'
    (λ k, match k with
          | KNone => inl ()
          | KInt n => inr (inl n)
          | KStr s => inr (inr s)
          end)
    (λ x, match x with
          | inl _ => KNone
          | inr (inl n) => KInt n
          | inr (inr s) => KStr s
          end) _).
  by intros [].
Defined.

(** The objects of the cell: the list of log entries (a list of
    references to dictionaries), a log entry ([Dict[str, Any]]), the
    [defaultdict(int)] of counts and the plain [dict] made from it. *)
Inductive obj :=
  | OList (entries : list loc)
  | OEntry (d : gmap string value)
  | ODefaultDict (counts : gmap key Z)
  | ODict (counts : gmap key Z).

Definition entries_of (o : obj) : option (list loc) :=
  match o with
  | OList entries => Some entries
  | _ => None
  end.

(** [entry.get(k, default)] *)
Definition entry_get (entry : loc) (k : string) (default : value)
    : M obj value :=
  o ← read entry;
  match o with
  | OEntry d => mret (get d k (Some default))
  | ODefaultDict counts | ODict counts =>
      mret (match counts !! KStr k with Some n => VInt n | None => default end)
  | OList _ => raise AttributeError
  end.

(** [counts[k] += 1] on a [defaultdict(int)]: a missing key reads as
    [int()], which is 0.  The cell only does this on the defaultdict it
    has made; on another object the model raises [TypeError] and does
    not follow Python further. *)
Definition increment (counts : loc) (k : value) : M obj unit :=
  o ← read counts;
  match o with
  | ODefaultDict m =>
      let n := default 0 (m !! key_of k) in
      write counts (ODefaultDict (<[key_of k := n + 1]> m))
  | _ => raise TypeError
  end.

(** [dict(d)]: a new plain dictionary with the items of [d]. *)
Definition dict (d : loc) : M obj loc :=
  o ← read d;
  match o with
  | ODefaultDict m | ODict m => alloc (ODict m)
  | OEntry e => alloc (OEntry e)
  | OList _ => raise TypeError
  end.

Definition analyze_logs (fuel : nat) (logs : loc) : M obj loc :=
  level_counts ← alloc (ODefaultDict ∅);
  for_in fuel entries_of logs 0 (λ entry,
    level ← entry_get entry "level" (VStr "UNKNOWN");
    increment level_counts level);;
  dict level_counts.

(** One round of the loop, seen on the dictionary of counts alone,
    and the rounds for a list of entries. *)
Definition count_one (m : gmap key Z) (d : gmap string value) : gmap key Z :=
  let k := key_of (get d "level" (Some (VStr "UNKNOWN"))) in
  <[k := default 0 (m !! k) + 1]> m.

Definition tally (ds : list (gmap string value)) : gmap key Z :=
  fold_left count_one ds ∅.

(** *** What the counts are compared with *)

(** An entry is counted under the level string [s] when its "level"
    key holds [s], and an entry without a "level" key is counted under
    "UNKNOWN". *)
Definition has_level (s : string) (d : gmap string value) : Prop :=
  d !! "level" = Some (VStr s) ∨ (d !! "level" = None ∧ s = "UNKNOWN").

#[global] Instance has_level_dec s d : Decision (has_level s d).
Proof. unfold has_level. apply _. Defined.

(** The number of entries counted under the level string [s]. *)
Definition entries_with_level (s : string) (ds : list (gmap string value))
    : Z :=
  Z.of_nat (length (filter (has_level s) ds)).

(** The same for a key of any type: a key is held by the values that
    are equal to it in Python, where [True] and [False] are equal to 1
    and 0. *)
Definition counted_under (k : key) (d : gmap string value) : bool :=
  match d !! "level", k with
  | Some (VStr t), KStr s => bool_decide (t = s)
  | Some (VInt m), KInt n => bool_decide (m = n)
  | Some (VBool true), KInt n => bool_decide (n = 1)
  | Some (VBool false), KInt n => bool_decide (n = 0)
  | Some VNone, KNone => true
  | None, KStr s => bool_decide (s = "UNKNOWN")
  | _, _ => false
  end.

(** The number of entries counted under [k]. *)
Definition occurrences (k : key) (ds : list (gmap string value)) : Z :=
  Z.of_nat (length (filter (λ d, counted_under k d = true) ds)).

(** The sum of the values of a dictionary of counts. *)
Definition values_sum (m : gmap key Z) : Z :=
  map_fold (λ _ n acc, n + acc) 0 m.

(** The log entries of the cell. *)
Definition log_entry (timestamp : Z) (level message : string)
    : gmap string value :=
  <["message" := VStr message]>
    (<["level" := VStr level]> (<["timestamp" := VInt timestamp]> ∅)).

Definition log_data : list (gmap string value) :=
  [log_entry 1678886400 "INFO" "User logged in";
   log_entry 1678886405 "INFO" "Data processed successfully";
   log_entry 1678886410 "WARNING" "Disk space low";
   log_entry 1678886415 "INFO" "Request received";
   log_entry 1678886420 "ERROR" "Database connection failed";
   log_entry 1678886425 "WARNING" "API rate limit approaching";
   log_entry 1678886430 "INFO" "User logged out";
   log_entry 1678886435 "DEBUG" "Variable value: xyz";
   log_entry 1678886440 "ERROR" "Null pointer exception"].

(** The store the cell calls [analyze_logs] in: the nine entries, then
    the list that refers to them. *)
Definition log_store : heap obj :=
  map OEntry log_data ++ [OList (seq 0 (length log_data))].

(** [analyze_logs] on the list at [logs] ends normally and the location
    it returns holds the dictionary [m]. *)
Definition analyze_logs_returns (h : heap obj) (fuel : nat) (logs : loc)
    (m : gmap key Z) : Prop :=
  ∃ result h',
    analyze_logs fuel logs h = Ok result h'
    ∧ h' !! result = Some (ODict m).

(** The count a dictionary of counts gives for [k]: 0 for a key that is
    not there. *)
Definition count_of (m : gmap key Z) (k : key) : Z := default 0 (m !! k).

End Dictionary.

(** ** Functions and scoping notebook: default arguments and closures *)

Module Scoping.

(** The objects of the two cells: lists of strings, and the cells that
    hold the variables a closure has captured. *)
Inductive obj :=
  | OList (xs : list string)
  | OCell (contents : Z).

(** [target_list.append(item)] *)
Definition append (target_list : loc) (item : string) : M obj unit :=
  o ← read target_list;
  match o with
  | OList xs => write target_list (OList (xs ++ [item]))
  | OCell _ => raise AttributeError
  end.

(** *** Mutable default argument *)

(** Executing [def add_item_bad(item, target_list=[])] evaluates the
    default once and keeps the list object with the function.  The
    function object is represented by the location of that list. *)
Record function_with_default := { target_list_default : loc }.

Definition def_add_item_bad : M obj function_with_default :=
  default_list ← alloc (OList []);
  mret {| target_list_default := default_list |}.

(** A call; [target_list] is [None] when the caller leaves it out. *)
Definition add_item_bad (self : function_with_default) (item : string)
    (target_list : option loc) : M obj loc :=
  let target_list := default (target_list_default self) target_list in
  append target_list item;;
  mret target_list.

(** [def add_item_good(item, target_list=None)]: the default is the
    immutable [None], so the function object carries no store. *)
Definition add_item_good (item : string) (target_list : option loc)
    : M obj loc :=
  target_list ← match target_list with
                 | None => alloc (OList [])
                 | Some l => mret l
                 end;
  append target_list item;;
  mret target_list.

(** The four calls of the cell. *)
Definition default_argument_cell : M obj (loc * loc * loc * loc) :=
  add_item_bad_fn ← def_add_item_bad;
  list1 ← add_item_bad add_item_bad_fn "apple" None;
  list2 ← add_item_bad add_item_bad_fn "banana" None;
  list3 ← add_item_good "cherry" None;
  list4 ← add_item_good "date" None;
  mret (list1, list2, list3, list4).

(** *** Closures *)

(** The function object [make_adder] returns: the code of [adder] with
    the cell of the captured variable [n] ([__closure__[0]]). *)
Record adder_closure := { adder_n : loc }.

(** A call of [make_adder] has a frame of its own, with a new cell for
    its parameter [n]. *)
Definition make_adder (n : Z) : M obj adder_closure :=
  cell_n ← alloc (OCell n);
  mret {| adder_n := cell_n |}.

(** [cell.cell_contents] *)
Definition cell_contents (cell : loc) : M obj Z :=
  o ← read cell;
  match o with
  | OCell n => mret n
  | OList _ => raise AttributeError
  end.

(** Calling the closure: [return x + n], [n] read from the cell. *)
Definition adder (self : adder_closure) (x : Z) : M obj Z :=
  n ← cell_contents (adder_n self);
  mret (x + n).

(** The closure cell: the three calls it prints and the captured
    value it inspects. *)
Definition closure_cell : M obj (Z * Z * Z * Z) :=
  add_5 ← make_adder 5;
  add_100 ← make_adder 100;
  r1 ← adder add_5 10;
  r2 ← adder add_5 20;
  r3 ← adder add_100 10;
  captured ← cell_contents (adder_n add_5);
  mret (r1, r2, r3, captured).

(** *** More calls of [add_item_bad] *)

(** Calls of [add_item_bad] without [target_list] with the items of a
    list, in order; the result lists what the calls returned. *)
Fixpoint add_items_bad (self : function_with_default) (items : list string)
    : M obj (list loc) :=
  match items with
  | [] => mret []
  | item :: rest =>
      returned ← add_item_bad self item None;
      others ← add_items_bad self rest;
      mret (returned :: others)
  end.

End Scoping.

(** ** Lambda notebook: [make_multiplier] and conditional formatting *)

Module Lambda.

(** *** A lambda that captures a variable *)

(** The only stored objects are closure cells holding an [int]. *)
Definition obj : Type := Z.

Record multiplier_closure := { multiplier_n : loc }.

Definition make_multiplier (n : Z) : M obj multiplier_closure :=
  cell_n ← alloc n;
  mret {| multiplier_n := cell_n |}.

(** Calling the lambda: [x * n], [n] read from the cell. *)
Definition multiplier (self : multiplier_closure) (x : Z) : M obj Z :=
  n ← read (multiplier_n self);
  mret (x * n).

Definition multiplier_cell : M obj (Z * Z) :=
  doubler ← make_multiplier 2;
  tripler ← make_multiplier 3;
  r1 ← multiplier doubler 10;
  r2 ← multiplier tripler 10;
  mret (r1, r2).

(** *** [str] of an [int] *)

Definition digit (d : Z) : ascii :=
  ascii_of_nat (48 + Z.to_nat d).

(** The digits of [n >= 0], least significant first, put in front of
    [acc]; [fuel] bounds the number of digits. *)
Fixpoint digits (fuel : nat) (n : Z) (acc : string) : string :=
  match fuel with
  | O => acc
  | S fuel' =>
      let acc' := String (digit (n mod 10)) acc in
      if n / 10 =? 0 then acc' else digits fuel' (n / 10) acc'
  end.

(** [n >= 0] has at most [log2 n + 1] decimal digits. *)
Definition str_nonneg (n : Z) : string :=
  digits (S (Z.to_nat (Z.log2 n))) n "".

(** The decimal numeral of [x]. *)
Definition decimal (x : Z) : string :=
  if x <? 0 then String "-" (str_nonneg (- x)) else str_nonneg x.

(** [sys.int_info.default_max_str_digits]: the interpreter refuses to
    convert an [int] of more decimal digits to a string. *)
Definition int_max_str_digits : Z := 4300.

(** [str(x)] for an [int]: the decimal numeral, and [ValueError] when
    [x] has more than [int_max_str_digits] digits, that is when
    [10 ^ 4300 <= abs x]. *)
Definition str (x : Z) : exn + string :=
  if 10 ^ int_max_str_digits <=? Z.abs x then inl ValueError
  else inr (decimal x).

(** *** The conditional formatting challenge *)

(** [lambda x: f"{x} (even)" if x % 2 == 0 else f"{x} (odd)"].
    Python's [%] takes the sign of the divisor, as [Z.modulo] does. *)
Definition format_lambda (x : Z) : exn + string :=
  if x mod 2 =? 0 then s ← str x; mret (s +:+ " (even)")
  else s ← str x; mret (s +:+ " (odd)").

(** [map(func, iterable)] is a lazy iterator: it holds the function and
    what is left of the input, and computes an item when asked. *)
Record map_object (A B : Type) := {
  map_func : A → B;
  map_rest : list A
}.
Arguments map_func {A B} _.
Arguments map_rest {A B} _.

Definition py_map {A B} (func : A → B) (iterable : list A) : map_object A B :=
  {| map_func := func; map_rest := iterable |}.

(** [next(it)]: [None] is [StopIteration]. *)
Definition next {A B} (it : map_object A B) : option (B * map_object A B) :=
  match map_rest it with
  | [] => None
  | x :: rest => Some (map_func it x, {| map_func := map_func it; map_rest := rest |})
  end.

(** [list(it)]: asks for items until the iterator stops, appending each
    to the list under construction.  [fuel] bounds the number of
    requests. *)
Fixpoint list_from {A B} (fuel : nat) (it : map_object A B) (acc : list B)
    : option (list B) :=
  match fuel with
  | O => None
  | S fuel' =>
      match next it with
      | None => Some acc
      | Some (y, it') => list_from fuel' it' (acc ++ [y])
      end
  end.

(** [list(it)] when the function of the [map] object can raise: an item
    is then the outcome of a call of the function, and an exception
    ends the construction of the list.  Running out of [fuel] is
    [OutOfFuel]. *)
Fixpoint list_from_raising {A B} (fuel : nat) (it : map_object A (exn + B))
    (acc : list B) : exn + list B :=
  match fuel with
  | O => inl OutOfFuel
  | S fuel' =>
      match next it with
      | None => inr acc
      | Some (outcome, it') =>
          y ← outcome;
          list_from_raising fuel' it' (acc ++ [y])
      end
  end.

(** [formatted_list = list(map(lambda ..., numbers_to_format))] *)
Definition formatted_list (numbers_to_format : list Z) : exn + list string :=
  list_from_raising (S (length numbers_to_format))
    (py_map format_lambda numbers_to_format) [].

(** [[expr for x in iterable]]: a loop over the input that appends the
    value of the element expression, and ends with the exception when
    the expression raises. *)
Fixpoint comprehension {A B} (expr : A → exn + B) (iterable : list A)
    (acc : list B) : exn + list B :=
  match iterable with
  | [] => inr acc
  | x :: rest =>
      y ← expr x;
      comprehension expr rest (acc ++ [y])
  end.

(** [formatted_lc = [... for x in numbers_to_format]] *)
Definition formatted_lc (numbers_to_format : list Z) : exn + list string :=
  comprehension
    (λ x, if x mod 2 =? 0 then s ← str x; mret (s +:+ " (even)")
          else s ← str x; mret (s +:+ " (odd)"))
    numbers_to_format [].

Definition numbers_to_format : list Z := [10; 3; 8; 9; 4].

(** *** What a decimal numeral denotes *)

Definition digit_value (c : ascii) : option Z :=
  let n := Z.of_nat (nat_of_ascii c) in
  if (48 <=? n) && (n <=? 57) then Some (n - 48) else None.

(** The value of a string of digits that comes after digits of value
    [acc]. *)
Fixpoint digits_value (s : string) (acc : Z) : option Z :=
  match s with
  | EmptyString => Some acc
  | String c s' =>
      match digit_value c with
      | Some d => digits_value s' (10 * acc + d)
      | None => None
      end
  end.

(** A numeral without sign has at least one digit, and starts with 0
    only when it is "0". *)
Definition natural_value (s : string) : option Z :=
  match s with
  | EmptyString => None
  | String c s' =>
      if Ascii.eqb c "0" && negb (String.eqb s' "") then None
      else digits_value s 0
  end.

(** The integer a decimal numeral denotes; a "-" comes only in front of
    the numeral of a positive number.  [None] for any other string. *)
Definition decimal_value (s : string) : option Z :=
  match s with
  | String c s' =>
      if Ascii.eqb c "-" then
        match natural_value s' with
        | Some v => if 0 <? v then Some (- v) else None
        | None => None
        end
      else natural_value s
  | EmptyString => None
  end.

(** *** [map], [filter] and [reduce] with a lambda *)

(** [filter(function, iterable)] is lazy as [map] is: it holds the
    function and what is left of the input; asked for an item, it
    drops the items the function rejects. *)
Record filter_object (A : Type) := {
  filter_func : A → bool;
  filter_rest : list A
}.
Arguments filter_func {A} _.
Arguments filter_rest {A} _.

Definition py_filter {A} (function : A → bool) (iterable : list A)
    : filter_object A :=
  {| filter_func := function; filter_rest := iterable |}.

Fixpoint next_accepted {A} (function : A → bool) (rest : list A)
    : option (A * list A) :=
  match rest with
  | [] => None
  | x :: rest' =>
      if function x then Some (x, rest') else next_accepted function rest'
  end.

Definition filter_next {A} (it : filter_object A)
    : option (A * filter_object A) :=
  match next_accepted (filter_func it) (filter_rest it) with
  | None => None
  | Some (x, rest) =>
      Some (x, {| filter_func := filter_func it; filter_rest := rest |})
  end.

(** [list(it)] for a filter object. *)
Fixpoint list_from_filter {A} (fuel : nat) (it : filter_object A)
    (acc : list A) : option (list A) :=
  match fuel with
  | O => None
  | S fuel' =>
      match filter_next it with
      | None => Some acc
      | Some (y, it') => list_from_filter fuel' it' (acc ++ [y])
      end
  end.

(** [list(map(lambda x: x * 2, nums))] and [[x * 2 for x in nums]] *)
Definition doubled_map (nums : list Z) : option (list Z) :=
  list_from (S (length nums)) (py_map (λ x, x * 2) nums) [].

Definition doubled_lc (nums : list Z) : list Z :=
  fold_left (λ acc x, acc ++ [x * 2]) nums [].

(** [list(filter(lambda x: x % 2 == 0, nums))] and
    [[x for x in nums if x % 2 == 0]] *)
Definition evens_filter (nums : list Z) : option (list Z) :=
  list_from_filter (S (length nums)) (py_filter (λ x, x mod 2 =? 0) nums) [].

Definition evens_lc (nums : list Z) : list Z :=
  fold_left (λ acc x, if x mod 2 =? 0 then acc ++ [x] else acc) nums [].

(** [functools.reduce(function, iterable)] without initial value: the
    first item starts the accumulation, and an empty iterable raises
    [TypeError]. *)
Definition reduce {A} (function : A → A → A) (iterable : list A) : exn + A :=
  match iterable with
  | [] => inl TypeError
  | x :: rest => inr (fold_left function rest x)
  end.

Definition product (nums : list Z) : exn + Z := reduce (λ x y, x * y) nums.

Definition total (nums : list Z) : exn + Z := reduce (λ x y, x + y) nums.

(** The builtin [sum(nums)], which starts from 0. *)
Definition py_sum (nums : list Z) : Z := fold_left (λ acc x, acc + x) nums 0.

End Lambda.

(** ** Formatting values *)

Module Format.

(** [str(v)], which is what a replacement field of an f-string puts in
    for [v]; it raises for an [int] over the digit limit. *)
Definition str_value (v : value) : exn + string :=
  match v with
  | VNone => inr "None"
  | VBool true => inr "True"
  | VBool false => inr "False"
  | VInt n => Lambda.str n
  | VStr s => inr s
  end.

(** [repr(v)], of which the exception only is modelled: the text goes
    to standard output, and for a string it follows Python's quoting
    rules.  It raises for an [int] over the digit limit. *)
Definition repr_value (v : value) : exn + unit :=
  match v with
  | VInt n => _ ← Lambda.str n; mret tt
  | _ => mret tt
  end.

(** *** What formatted values are compared with *)

(** [v] is an [int] of at most 4300 decimal digits, or no [int]. *)
Definition within_digit_limit (v : value) : Prop :=
  ∀ n, v = VInt n → Z.abs n < 10 ^ 4300.

(** [s] is the text of [v]: for an [int], the decimal numeral that
    denotes it. *)
Definition renders (v : value) (s : string) : Prop :=
  match v with
  | VNone => s = "None"
  | VBool b => s = if b then "True" else "False"
  | VInt n => Lambda.decimal_value s = Some n
  | VStr t => s = t
  end.

End Format.

(** ** [global] and [nonlocal] variables *)

Module Nonlocal.
Import Scoping.

(** Some calls of a function one after the other. *)
Fixpoint call_times (n : nat) (call : M obj unit) : M obj unit :=
  match n with
  | O => mret tt
  | S n' => call;; call_times n' call
  end.

(** [increment_counter] declares [call_count] global: it reads and
    rebinds the variable of the module, which is the cell at
    [call_count], and prints the new value. *)
Definition increment_counter (call_count : loc) : M obj unit :=
  n ← cell_contents call_count;
  write call_count (OCell (n + 1));;
  n ← cell_contents call_count;
  print (s ← Lambda.str n;
         mret ("  Inside increment_counter, global call_count is now: " +:+ s)).

(** The two closures [create_tracker] returns; both hold the cell of
    [tracked_value]. *)
Record update_value_closure := { update_value_tracked : loc }.
Record get_value_closure := { get_value_tracked : loc }.

Definition create_tracker : M obj (update_value_closure * get_value_closure) :=
  tracked_value ← alloc (OCell 100);
  mret ({| update_value_tracked := tracked_value |},
        {| get_value_tracked := tracked_value |}).

(** [update_value]: prints [tracked_value], rebinds the nonlocal
    variable, and prints it again. *)
Definition update_value (self : update_value_closure) (new_val : Z)
    : M obj unit :=
  old ← cell_contents (update_value_tracked self);
  print (s ← Lambda.str old;
         mret ("    Inside update_value: old tracked_value=" +:+ s));;
  write (update_value_tracked self) (OCell new_val);;
  new ← cell_contents (update_value_tracked self);
  print (s ← Lambda.str new;
         mret ("    Inside update_value: new tracked_value=" +:+ s)).

Definition get_value (self : get_value_closure) : M obj Z :=
  cell_contents (get_value_tracked self).

(** Calls of [update_value] with the values of a list, in order. *)
Fixpoint update_values (self : update_value_closure) (new_vals : list Z)
    : M obj unit :=
  match new_vals with
  | [] => mret tt
  | new_val :: rest => update_value self new_val;; update_values self rest
  end.

End Nonlocal.

(** ** The asterisk notebook: keyword-only arguments *)

Module Asterisk.

(** A call site: the positional arguments in order, and the keyword
    arguments by name (a name cannot be given twice in a call). *)
Record call := {
  args : list value;
  kwargs : gmap string value
}.

(** The parameters of [create_user]: its parameter list opens with a
    bare asterisk, followed by [user_id, name, is_active=True], so all
    three are keyword-only and there is no positional parameter. *)
Definition create_user_params : gset string :=
  {[ "user_id"; "name"; "is_active" ]}.

(** Binding the arguments of a call to the parameters of [create_user].
    Python raises [TypeError] for a keyword that is no parameter, for a
    positional argument (there is no positional parameter to take it)
    and for a keyword-only parameter without default that is missing. *)
Definition bind_create_user (c : call) : exn + (value * value * value) :=
  if bool_decide (dom (kwargs c) ⊆ create_user_params) then
    match args c with
    | [] =>
        match kwargs c !! "user_id", kwargs c !! "name" with
        | Some user_id, Some name =>
            inr (user_id, name, default (VBool true) (kwargs c !! "is_active"))
        | _, _ => inl TypeError
        end
    | _ :: _ => inl TypeError
    end
  else inl TypeError.




End Asterisk.

(** ** Binding the arguments of a call

    The functions of the two argument notebooks differ in their
    parameter lists; what Python does with a call is the same for all
    of them, and is modelled once. *)

Module Calls.
Import Asterisk Format.

(** A parameter list: the parameters that take a positional or a
    keyword argument, whether a starred parameter collects further
    positional arguments, the keyword-only parameters, and whether a
    double-starred parameter collects further keyword arguments.  A
    parameter comes with its default, if it has one. *)
Record signature := {
  params : list (string * option value);
  var_positional : bool;
  kwonly : list (string * option value);
  var_keyword : bool
}.

(** What the body of the function sees: a value for every parameter,
    the tuple of the starred parameter and the dictionary of the
    double-starred parameter (both empty when there is none). *)
Record bound := {
  named : gmap string value;
  star_args : list value;
  star_kwargs : gmap string value
}.

(** A value for each parameter: the argument given for it, else its
    default; [None] when a parameter has neither. *)
Fixpoint fill (ps : list (string * option value)) (given : gmap string value)
    : option (gmap string value) :=
  match ps with
  | [] => Some ∅
  | (name, dflt) :: ps' =>
      match given !! name, dflt with
      | Some v, _ | None, Some v => <[name := v]> <$> fill ps' given
      | None, None => None
      end
  end.

(** Python raises [TypeError] for more positional arguments than
    parameters to take them, for a keyword that names no parameter
    (without a double-starred parameter in both cases), for a
    parameter that gets a positional and a keyword argument, and for a
    parameter without default that gets no argument. *)
Definition bind (sig : signature) (c : call) : exn + bound :=
  let positional := (params sig).*1 in
  let names : gset string := list_to_set (positional ++ (kwonly sig).*1) in
  let by_position : gmap string value := list_to_map (zip positional (args c)) in
  if negb (var_positional sig)
     && (length positional <? length (args c))%nat then
    inl TypeError
  else if negb (var_keyword sig)
          && negb (bool_decide (dom (kwargs c) ⊆ names)) then
    inl TypeError
  else if negb (bool_decide (dom by_position ∩ dom (kwargs c) = ∅)) then
    inl TypeError
  else
    match fill (params sig ++ kwonly sig) (by_position ∪ kwargs c) with
    | None => inl TypeError
    | Some named =>
        inr {| named := named;
               star_args := drop (length positional) (args c);
               star_kwargs := filter (λ kv, kv.1 ∉ names) (kwargs c) |}
    end.

(** The value of a parameter in the body ([bind] gives every parameter
    one). *)
Definition argument (b : bound) (name : string) : value :=
  default VNone (named b !! name).

(** *** The parameter lists of the notebooks *)

(** [create_user]: a bare asterisk, then [user_id, name,
    is_active=True] *)
Definition create_user_signature : signature :=
  {| params := [];
     var_positional := false;
     kwonly := [("user_id", None); ("name", None);
                ("is_active", Some (VBool true))];
     var_keyword := false |}.



(** [def log_event(event_type, *details, severity='INFO', **metadata)] *)
Definition log_event_signature : signature :=
  {| params := [("event_type", None)];
     var_positional := true;
     kwonly := [("severity", Some (VStr "INFO"))];
     var_keyword := true |}.


(** [def describe_pet(animal_type, pet_name)] *)
Definition describe_pet_signature : signature :=
  {| params := [("animal_type", None); ("pet_name", None)];
     var_positional := false;
     kwonly := [];
     var_keyword := false |}.

(** [def build_profile(first, last, **user_info)] *)
Definition build_profile_signature : signature :=
  {| params := [("first", None); ("last", None)];
     var_positional := false;
     kwonly := [];
     var_keyword := true |}.



Definition log_event (c : call) : exn + bound :=
  bind log_event_signature c.


(** [return f"I have a {animal_type} named {pet_name}."] *)
Definition describe_pet (c : call) : exn + string :=
  b ← bind describe_pet_signature c;
  animal_type ← str_value (argument b "animal_type");
  pet_name ← str_value (argument b "pet_name");
  mret ("I have a " +:+ animal_type +:+ " named " +:+ pet_name +:+ ".").

(** [repr] of a dictionary with string keys calls [repr] on every
    value. *)
Definition repr_dict (d : gmap string value) : exn + unit :=
  map_fold (λ _ value done, done;; repr_value value) (mret tt) d.

(** [build_profile]: the two names are stored first; the [print] of
    [user_info] formats the dictionary with [repr]; then each item of
    [user_info] is stored under its key. *)
Definition build_profile (c : call) : exn + gmap string value :=
  b ← bind build_profile_signature c;
  let profile : gmap string value :=
    <["last_name" := argument b "last"]>
      (<["first_name" := argument b "first"]> ∅) in
  repr_dict (star_kwargs b);;
  mret (map_fold (λ key value profile, <[key := value]> profile)
          profile (star_kwargs b)).

(** *** [format_data]

    The result depends on the order of the items of [kwargs], so the
    dictionary is the list of its items in insertion order, which for
    the dictionary of a double-starred parameter is the order of the
    keywords in the call; a keyword occurs once in a call. *)

(** [d.pop(key, default)]: the value and what is left of [d]. *)
Fixpoint pop (d : list (string * value)) (key : string) (dflt : value)
    : value * list (string * value) :=
  match d with
  | [] => (dflt, [])
  | (k, v) :: d' =>
      if String.eqb k key then (v, d')
      else let '(r, d'') := pop d' key dflt in (r, (k, v) :: d'')
  end.

(** [separator.join(parts)]: only a string has the method. *)
Definition join (separator : value) (parts : list string) : exn + string :=
  match separator with
  | VStr sep => inr (String.concat sep parts)
  | _ => inl AttributeError
  end.

(** The loop of [format_data]: for every item, the part
    [f"{prefix}{key}={value}"] is appended to [formatted_parts]. *)
Fixpoint format_parts (prefix : value) (kwargs : list (string * value))
    (formatted_parts : list string) : exn + list string :=
  match kwargs with
  | [] => inr formatted_parts
  | (key, value) :: rest =>
      p ← str_value prefix;
      v ← str_value value;
      format_parts prefix rest (formatted_parts ++ [p +:+ key +:+ "=" +:+ v])
  end.

Definition format_data (kwargs : list (string * value)) : exn + string :=
  let '(prefix, kwargs) := pop kwargs "prefix" (VStr "") in
  let '(separator, kwargs) := pop kwargs "separator" (VStr ", ") in
  formatted_parts ← format_parts prefix kwargs [];
  join separator formatted_parts.

(** *** What the result of [format_data] is compared with *)

(** The value the call gives for an option, else its default. *)
Definition option_value (kwargs : list (string * value)) (key : string)
    (dflt : value) : value :=
  default dflt ((list_to_map kwargs : gmap string value) !! key).

(** The items of the call that are data: all but the two options. *)
Definition data_items (kwargs : list (string * value))
    : list (string * value) :=
  filter (λ kv, kv.1 ≠ "prefix" ∧ kv.1 ≠ "separator") kwargs.

End Calls.

(** ** Arguments that are lists *)

Module Passing.

(** The objects are lists of integers and strings. *)
Definition obj : Type := list value.

(** [a_list.append(x)] *)
Definition append (a_list : loc) (x : value) : M obj unit :=
  xs ← read a_list;
  write a_list (xs ++ [x]).

(** [a_list.extend(other)], which is also what [a_list += other] does
    to the list object. *)
Definition extend (a_list other : loc) : M obj unit :=
  ys ← read other;
  xs ← read a_list;
  write a_list (xs ++ ys).

(** [a_list + other]: a new list. *)
Definition add (a_list other : loc) : M obj loc :=
  xs ← read a_list;
  ys ← read other;
  alloc (xs ++ ys).

(** [def foo(a_list): a_list.append(4)] *)
Definition foo_append (a_list : loc) : M obj unit :=
  append a_list (VInt 4).

(** [def foo(a_list): a_list = [50, 60, 70]; a_list.append(50)]: the
    assignment binds the local name to a new list. *)
Definition foo_rebind (a_list : loc) : M obj unit :=
  a_list ← alloc [VInt 50; VInt 60; VInt 70];
  append a_list (VInt 50).

(** [def foo(a_list): a_list += [4, 5]] *)
Definition foo_iadd (a_list : loc) : M obj unit :=
  other ← alloc [VInt 4; VInt 5];
  extend a_list other.

(** [def bar(a_list): a_list = a_list + [4, 5]] *)
Definition bar (a_list : loc) : M obj unit :=
  other ← alloc [VInt 4; VInt 5];
  a_list ← add a_list other;
  mret tt.

End Passing.

(** ** Itertools notebook: [generate_pairings] *)

Module Itertools.

(** [itertools.combinations(iterable, r)]: the [r]-length subsequences
    of the input, in lexicographic order of their positions.  A tuple
    of the result is a list of length [r]. *)
Fixpoint combinations {A} (pool : list A) (r : nat) : list (list A) :=
  match r with
  | O => [[]]
  | S r' =>
      match pool with
      | [] => []
      | x :: rest =>
          map (cons x) (combinations rest r') ++ combinations rest r
      end
  end.

Definition generate_pairings (teams : list string) : list (list string) :=
  if (length teams <? 2)%nat then []
  else combinations teams 2.

Definition team_list : list string := ["Eagles"; "Sharks"; "Lions"; "Bears"].

(** *** What the pairings are compared with *)

(** The pairs of positions [(i, j)] with [i < j < n]: for every [i]
    in increasing order, every [j] after it in increasing order. *)
Definition index_pairs (n : nat) : list (nat * nat) :=
  flat_map (λ i, map (pair i) (seq (S i) (n - S i))) (seq 0 n).

(** The tuple [(teams[i], teams[j])]. *)
Definition pairing_at (teams : list string) (ij : nat * nat) : list string :=
  [teams !!! ij.1; teams !!! ij.2].

(** Lexicographic order on pairs of positions. *)
Definition lex_lt (p q : nat * nat) : Prop :=
  (p.1 < q.1)%nat ∨ (p.1 = q.1 ∧ (p.2 < q.2)%nat).

(** *** Grouping *)

(** [def get_key(x): return "even" if x % 2 == 0 else "odd"] *)
Definition get_key (x : Z) : string :=
  if x mod 2 =? 0 then "even" else "odd".

(** [itertools.groupby(iterable, key)] with every group made a list, as
    the loop of the cell does: one pair of a key and a group for every
    run of consecutive items with the same key. *)
Fixpoint groupby {A K} `{EqDecision K} (key : A → K) (iterable : list A)
    : list (K * list A) :=
  match iterable with
  | [] => []
  | x :: rest =>
      match groupby key rest with
      | (k, group) :: groups =>
          if decide (key x = k) then (k, x :: group) :: groups
          else (key x, [x]) :: (k, group) :: groups
      | [] => [(key x, [x])]
      end
  end.

End Itertools.

(** * Properties *)

(** ** Running programs in the store *)

Section StoreFacts.
Context {Obj : Type}.
Implicit Types (h : heap Obj) (l : loc) (o : Obj).

Lemma bind_Ok {A B} (m : M Obj A) (k : A → M Obj B) h a h1 :
  m h = Ok a h1 → (m ≫= k) h = k a h1.
Proof. unfold mbind, M_bind. by intros ->. Qed.

Lemma read_Ok l h o : h !! l = Some o → read l h = Ok o h.
Proof. unfold read. by intros ->. Qed.

Lemma write_Ok l h o o' :
  h !! l = Some o' → write l o h = Ok tt (<[l:=o]> h).
Proof. unfold write. by intros ->. Qed.

(** An object of the store is still there, unchanged, after any number
    of allocations. *)
Lemma lookup_old h ext l o : h !! l = Some o → (h ++ ext) !! l = Some o.
Proof. apply lookup_app_l_Some. Qed.

(** The [n]-th object allocated on top of [h]. *)
Lemma lookup_new h ext n l :
  l = (length h + n)%nat → (h ++ ext) !! l = ext !! n.
Proof.
  intros ->. rewrite lookup_app_r by lia. f_equal. lia.
Qed.

Lemma lookup_new_Some h ext n l o :
  l = (length h + n)%nat → ext !! n = Some o → (h ++ ext) !! l = Some o.
Proof. intros Hl <-. by apply lookup_new. Qed.

Lemma insert_new h ext n l o :
  l = (length h + n)%nat → <[l:=o]> (h ++ ext) = h ++ <[n:=o]> ext.
Proof.
  intros ->. rewrite insert_app_r_alt by lia. do 2 f_equal. lia.
Qed.

(** The first object allocated on top of [h], read and overwritten. *)
Lemma lookup_first_new h o ext : (h ++ o :: ext) !! length h = Some o.
Proof. by apply list_lookup_middle. Qed.

Lemma insert_first_new h o o' ext :
  <[length h:=o]> (h ++ o' :: ext) = h ++ o :: ext.
Proof. by rewrite (insert_new _ _ 0) by lia. Qed.

(** The [n]-th new object, found by counting. *)
Lemma lookup_new_Some_here h ext n o :
  ext !! n = Some o → (h ++ ext) !! (length h + n)%nat = Some o.
Proof. by apply lookup_new_Some. Qed.

(** The loop rule: an invariant [I i] (holding before the item at
    index [i] is taken) that keeps the iterated list as it is and that
    every run of the body carries one index further holds at the end,
    and the loop ends within [length xs + 1] steps. *)
Lemma for_in_invariant {X} (elems : Obj → option (list X)) l o xs
    (body : X → M Obj unit) (I : nat → heap Obj → Prop) :
  elems o = Some xs →
  (∀ i h, I i h → h !! l = Some o) →
  (∀ i x h, xs !! i = Some x → I i h →
     ∃ h', body x h = Ok tt h' ∧ I (S i) h') →
  ∀ fuel i h,
    (i ≤ length xs)%nat → (length xs - i < fuel)%nat → I i h →
    ∃ h', for_in fuel elems l i body h = Ok tt h' ∧ I (length xs) h'.
Proof.
  intros Helems Hkeep Hstep fuel.
  induction fuel as [|fuel IH]; intros i h Hi Hfuel HI; [lia|].
  simpl. rewrite (bind_Ok _ _ h o h) by (apply read_Ok; eauto).
  rewrite Helems.
  destruct (xs !! i) as [x|] eqn:Hx.
  - destruct (Hstep i x h Hx HI) as (h1 & Hbody & HI1).
    rewrite (bind_Ok _ _ h tt h1) by done.
    apply lookup_lt_Some in Hx.
    apply IH; [lia | lia | done].
  - apply lookup_ge_None in Hx.
    assert (i = length xs) as -> by lia.
    by exists h.
Qed.

End StoreFacts.

(** Looking an object up after some allocations on top of the store. *)
Create HintDb store discriminated.
#[global] Hint Resolve lookup_old lookup_first_new : store.
#[global] Hint Extern 1 ((_ ++ _) !! (_ + _)%nat = Some _) =>
  apply lookup_new_Some_here; reflexivity : store.

(** Runs the first statement of a program with the lemma [H] that gives
    its outcome, proving the premises of [H] by lookups in the store. *)
Ltac run_with H :=
  erewrite bind_Ok by (apply H; eauto with store);
  rewrite ?length_app, <- ?app_assoc; cbn [app length].

(** ** [compare_features] *)

Section CompareFeatures.
Import Sets.

Lemma set_Ok (h : heap obj) iterable o :
  h !! iterable = Some o →
  set iterable h = Ok (length h) (h ++ [OSet (items o)]).
Proof.
  intros Hit. unfold set. by rewrite (bind_Ok _ _ _ _ _ (read_Ok _ _ _ Hit)).
Qed.

Lemma intersection_Ok (h : heap obj) a b sa ob :
  h !! a = Some (OSet sa) → h !! b = Some ob →
  intersection a b h = Ok (length h) (h ++ [OSet (sa ∩ items ob)]).
Proof.
  intros Ha Hb. unfold intersection.
  rewrite (bind_Ok _ _ _ _ _ (read_Ok _ _ _ Ha)).
  by rewrite (bind_Ok _ _ _ _ _ (read_Ok _ _ _ Hb)).
Qed.

Lemma difference_Ok (h : heap obj) a b sa ob :
  h !! a = Some (OSet sa) → h !! b = Some ob →
  difference a b h = Ok (length h) (h ++ [OSet (sa ∖ items ob)]).
Proof.
  intros Ha Hb. unfold difference.
  rewrite (bind_Ok _ _ _ _ _ (read_Ok _ _ _ Ha)).
  by rewrite (bind_Ok _ _ _ _ _ (read_Ok _ _ _ Hb)).
Qed.

(** What a call of [compare_features] on two lists does to the store:
    it allocates the two sets and the three results on top of it. *)
Lemma compare_features_run (h : heap obj) v1 v2 xs1 xs2 :
  h !! v1 = Some (OList xs1) →
  h !! v2 = Some (OList xs2) →
  let s1 : gset string := list_to_set xs1 in
  let s2 : gset string := list_to_set xs2 in
  let n := length h in
  compare_features v1 v2 h =
    Ok (n + 2, n + 3, n + 4)%nat
       (h ++ [OSet s1; OSet s2; OSet (s1 ∩ s2); OSet (s1 ∖ s2); OSet (s2 ∖ s1)]).
Proof.
  intros H1 H2 s1 s2 n. unfold compare_features.
  run_with (set_Ok h v1 (OList xs1)).
  run_with (set_Ok (h ++ [OSet s1]) v2 (OList xs2)).
  run_with (intersection_Ok (h ++ [OSet s1; OSet s2]) n (n + 1)%nat s1 (OSet s2)).
  run_with (difference_Ok (h ++ [OSet s1; OSet s2; OSet (s1 ∩ s2)])
              n (n + 1)%nat s1 (OSet s2)).
  run_with (difference_Ok
              (h ++ [OSet s1; OSet s2; OSet (s1 ∩ s2); OSet (s1 ∖ s2)])
              (n + 1)%nat n s2 (OSet s1)).
  reflexivity.
Qed.

(** C1: on two lists of strings, [compare_features] returns three
    sets: the strings that occur in both lists, those that occur in the
    first and not in the second, and those that occur in the second and
    not in the first, that is [set(v1) ∩ set(v2)], [set(v1) ∖ set(v2)]
    and [set(v2) ∖ set(v1)]. *)
Theorem compare_features_spec (h : heap obj) v1 v2 xs1 xs2 :
  h !! v1 = Some (OList xs1) →
  h !! v2 = Some (OList xs2) →
  ∃ common unique1 unique2 h' (c u1 u2 : gset string),
    compare_features v1 v2 h = Ok (common, unique1, unique2) h'
    ∧ h' !! common = Some (OSet c)
    ∧ h' !! unique1 = Some (OSet u1)
    ∧ h' !! unique2 = Some (OSet u2)
    ∧ c = list_to_set xs1 ∩ list_to_set xs2
    ∧ u1 = list_to_set xs1 ∖ list_to_set xs2
    ∧ u2 = list_to_set xs2 ∖ list_to_set xs1
    ∧ ∀ s : string,
        (s ∈ c ↔ s ∈ xs1 ∧ s ∈ xs2)
        ∧ (s ∈ u1 ↔ s ∈ xs1 ∧ s ∉ xs2)
        ∧ (s ∈ u2 ↔ s ∈ xs2 ∧ s ∉ xs1).
Proof.
  intros H1 H2.
  eexists _, _, _, _, _, _, _.
  split; [by apply (compare_features_run h v1 v2 xs1 xs2)|].
  split; [by rewrite (lookup_new _ _ 2) by lia|].
  split; [by rewrite (lookup_new _ _ 3) by lia|].
  split; [by rewrite (lookup_new _ _ 4) by lia|].
  do 3 (split; [reflexivity|]).
  intros s. rewrite elem_of_intersection, !elem_of_difference.
  rewrite !elem_of_list_to_set. done.
Qed.

Lemma compare_features_spec_witness :
  ∃ common unique1 unique2 h' (c u1 u2 : gset string),
    compare_features 0%nat 1%nat features_store
      = Ok (common, unique1, unique2) h'
    ∧ h' !! common = Some (OSet c)
    ∧ h' !! unique1 = Some (OSet u1)
    ∧ h' !! unique2 = Some (OSet u2)
    ∧ c = list_to_set features_v1 ∩ list_to_set features_v2
    ∧ u1 = list_to_set features_v1 ∖ list_to_set features_v2
    ∧ u2 = list_to_set features_v2 ∖ list_to_set features_v1
    ∧ ∀ s : string,
        (s ∈ c ↔ s ∈ features_v1 ∧ s ∈ features_v2)
        ∧ (s ∈ u1 ↔ s ∈ features_v1 ∧ s ∉ features_v2)
        ∧ (s ∈ u2 ↔ s ∈ features_v2 ∧ s ∉ features_v1).
Proof.
  apply (compare_features_spec features_store 0%nat 1%nat); reflexivity.
Defined.

End CompareFeatures.

(** ** [filter_passing_students] *)

Section FilterPassingStudents.
Import Tuples.

(** What a call of [filter_passing_students] does to the store: it
    allocates one list, and fills it with the passing students in the
    order of the input. *)
Lemma filter_passing_students_run (h : heap obj) students xs passing_grade fuel :
  h !! students = Some xs →
  (length xs < fuel)%nat →
  filter_passing_students fuel students passing_grade h =
    Ok (length h) (h ++ [filter (λ s, passes passing_grade s = true) xs]).
Proof.
  intros Hs Hfuel. unfold filter_passing_students.
  rewrite (bind_Ok _ _ h (length h) (h ++ [[]])) by done.
  match goal with |- context [for_in _ _ _ _ ?b] => set (body := b) end.
  destruct (for_in_invariant Some students xs xs body
    (λ i h', h' = h ++ [filter (λ s, passes passing_grade s = true) (take i xs)]))
    with (fuel := fuel) (i := 0%nat) (h := h ++ [[] : obj])
    as (h' & Hrun & ->); try done.
  - intros i h' ->. by apply lookup_old.
  - intros i [[name student_id] score] h' Hx ->.
    rewrite (take_S_r _ _ _ Hx), filter_app, filter_cons, filter_nil.
    unfold body.
    change (PrimFloat.leb (default 60%float passing_grade) score)
      with (passes passing_grade (name, student_id, score)).
    destruct (passes passing_grade (name, student_id, score)); case_decide; try done.
    + eexists. split; [|reflexivity]. unfold append.
      erewrite bind_Ok by apply read_Ok, lookup_first_new.
      erewrite write_Ok by apply lookup_first_new.
      by rewrite insert_first_new.
    + eexists. split; [done|]. by rewrite app_nil_r.
  - lia.
  - lia.
  - rewrite (bind_Ok _ _ _ _ _ Hrun). by rewrite firstn_all.
Qed.

End FilterPassingStudents.

(** ** [analyze_logs] *)

Section AnalyzeLogs.
Import Dictionary.

Lemma tally_snoc ds d : tally (ds ++ [d]) = count_one (tally ds) d.
Proof. unfold tally. by rewrite fold_left_app. Qed.

Lemma entry_get_Ok (h : heap obj) e d k dflt :
  h !! e = Some (OEntry d) →
  entry_get e k dflt h = Ok (get d k (Some dflt)) h.
Proof.
  intros He. unfold entry_get. by rewrite (bind_Ok _ _ _ _ _ (read_Ok _ _ _ He)).
Qed.

Lemma increment_Ok (h : heap obj) m v ext :
  increment (length h) v (h ++ ODefaultDict m :: ext) =
    Ok tt (h ++ ODefaultDict (<[key_of v := default 0 (m !! key_of v) + 1]> m) :: ext).
Proof.
  unfold increment.
  rewrite (bind_Ok _ _ _ _ _ (read_Ok _ _ _ (lookup_first_new _ _ _))).
  rewrite (write_Ok _ _ _ _ (lookup_first_new _ _ _)).
  by rewrite insert_first_new.
Qed.

(** What a call of [analyze_logs] does to the store: it allocates the
    defaultdict and the dictionary it returns, both holding the tally
    of the entries. *)
Lemma analyze_logs_run (h : heap obj) logs es ds fuel :
  h !! logs = Some (OList es) →
  Forall2 (λ e d, h !! e = Some (OEntry d)) es ds →
  (length es < fuel)%nat →
  analyze_logs fuel logs h =
    Ok (S (length h)) (h ++ [ODefaultDict (tally ds); ODict (tally ds)]).
Proof.
  intros Hlogs Hes Hfuel. unfold analyze_logs.
  rewrite (bind_Ok _ _ h (length h) (h ++ [ODefaultDict ∅])) by done.
  match goal with |- context [for_in _ _ _ _ ?b] => set (body := b) end.
  destruct (for_in_invariant entries_of logs (OList es) es body
    (λ i h', h' = h ++ [ODefaultDict (tally (take i ds))]))
    with (fuel := fuel) (i := 0%nat) (h := h ++ [ODefaultDict ∅])
    as (h' & Hrun & ->); try done.
  - intros i h' ->. by apply lookup_old.
  - intros i e h' He ->.
    destruct (Forall2_lookup_l _ _ _ _ _ Hes He) as (d & Hd & Hed).
    rewrite (take_S_r _ _ _ Hd), tally_snoc.
    eexists. split; [|reflexivity]. unfold body.
    erewrite bind_Ok by apply entry_get_Ok, lookup_old, Hed.
    apply increment_Ok.
  - lia.
  - lia.
  - rewrite (bind_Ok _ _ _ _ _ Hrun).
    rewrite (Forall2_length _ _ _ Hes), firstn_all. unfold dict.
    erewrite bind_Ok by apply read_Ok, lookup_first_new.
    unfold alloc. rewrite length_app, <- app_assoc. simpl.
    by rewrite Nat.add_1_r.
Qed.

Lemma counted_under_level k d :
  counted_under k d = true ↔ key_of (get d "level" (Some (VStr "UNKNOWN"))) = k.
Proof.
  unfold counted_under, get.
  destruct (d !! "level") as [[|[]|m|t]|], k as [|n|s]; simpl;
    rewrite ?bool_decide_eq_true; split; intros H;
    try done; try congruence; try (by injection H).
Qed.

Lemma occurrences_snoc k ds d :
  occurrences k (ds ++ [d]) =
    occurrences k ds + (if counted_under k d then 1 else 0).
Proof.
  unfold occurrences. rewrite filter_app, length_app, filter_cons, filter_nil.
  destruct (counted_under k d); case_decide; try done; simpl; lia.
Qed.

Lemma occurrences_nonneg k ds : 0 ≤ occurrences k ds.
Proof. unfold occurrences. lia. Qed.

(** The tally holds, for every key, the number of entries counted
    under it (0 read for a key that is not there) ... *)
Lemma tally_lookup_default ds k :
  default 0 (tally ds !! k) = occurrences k ds.
Proof.
  induction ds as [|d ds IH] using rev_ind; [done|].
  rewrite tally_snoc, occurrences_snoc. unfold count_one.
  destruct (counted_under k d) eqn:Hk.
  - apply counted_under_level in Hk as ->.
    rewrite lookup_insert_eq. simpl. by rewrite IH.
  - rewrite lookup_insert_ne; [rewrite IH; lia|].
    intros Heq. apply counted_under_level in Heq. congruence.
Qed.

(** ... and never holds a 0. *)
Lemma tally_positive ds k n : tally ds !! k = Some n → 0 < n.
Proof.
  revert k n. induction ds as [|d ds IH] using rev_ind; intros k n; [done|].
  rewrite tally_snoc. unfold count_one.
  set (k' := key_of _). destruct (decide (k' = k)) as [<-|Hne].
  - rewrite lookup_insert_eq. intros [= <-].
    pose proof (tally_lookup_default ds k') as Hocc.
    pose proof (occurrences_nonneg k' ds). lia.
  - rewrite lookup_insert_ne by done. apply IH.
Qed.

Lemma tally_lookup ds k :
  tally ds !! k =
    if decide (occurrences k ds = 0) then None else Some (occurrences k ds).
Proof.
  pose proof (tally_lookup_default ds k) as Hd.
  destruct (tally ds !! k) as [n|] eqn:Hk; simpl in Hd.
  - apply tally_positive in Hk. rewrite decide_False by lia. by rewrite Hd.
  - by rewrite decide_True.
Qed.

Lemma values_sum_insert (m : gmap key Z) k n :
  values_sum (<[k := n]> m) = values_sum m - default 0 (m !! k) + n.
Proof.
  unfold values_sum.
  assert (Hcomm : ∀ (m' : gmap key Z) (j1 j2 : key) (z1 z2 y : Z),
            j1 ≠ j2 → m' !! j1 = Some z1 → m' !! j2 = Some z2 →
            z1 + (z2 + y) = z2 + (z1 + y)) by (intros; lia).
  destruct (m !! k) as [n'|] eqn:Hk; simpl.
  - rewrite <- (insert_delete_eq m), (map_fold_delete_L _ _ k n' m);
      [|by apply Hcomm|done].
    rewrite map_fold_insert_L; [lia|by apply Hcomm|apply lookup_delete_eq].
  - rewrite map_fold_insert_L; [lia|by apply Hcomm|done].
Qed.

Lemma values_sum_tally ds : values_sum (tally ds) = Z.of_nat (length ds).
Proof.
  induction ds as [|d ds IH] using rev_ind; [done|].
  rewrite tally_snoc, length_app. unfold count_one.
  rewrite values_sum_insert, IH. simpl. lia.
Qed.

(** For a level string, being counted under the key is having the
    level. *)
Lemma counted_under_has_level s d :
  counted_under (KStr s) d = true ↔ has_level s d.
Proof.
  unfold counted_under, has_level.
  destruct (d !! "level") as [[|[]|m|t]|]; simpl;
    rewrite ?bool_decide_eq_true; naive_solver.
Qed.

Lemma occurrences_entries_with_level s ds :
  occurrences (KStr s) ds = entries_with_level s ds.
Proof.
  unfold occurrences, entries_with_level. do 2 f_equal.
  apply list_filter_iff. intros d. apply counted_under_has_level.
Qed.

(** C10: on a list of log entries, [analyze_logs] returns a dictionary
    that maps every level string to the number of entries whose "level"
    key holds it, an entry without "level" being counted under
    "UNKNOWN" (and likewise every key of another type to the number of
    entries whose level is equal to it); a key with no such entry is
    not in the dictionary, so no level maps to 0, and the values sum to
    the length of the input list. *)
Theorem analyze_logs_spec (h : heap obj) logs es ds fuel :
  h !! logs = Some (OList es) →
  Forall2 (λ e d, h !! e = Some (OEntry d)) es ds →
  (length es < fuel)%nat →
  ∃ result h' (m : gmap key Z),
    analyze_logs fuel logs h = Ok result h'
    ∧ h' !! result = Some (ODict m)
    ∧ (∀ s : string, m !! KStr s =
         if decide (entries_with_level s ds = 0) then None
         else Some (entries_with_level s ds))
    ∧ (∀ k, m !! k =
         if decide (occurrences k ds = 0) then None
         else Some (occurrences k ds))
    ∧ values_sum m = Z.of_nat (length es)
    ∧ (∀ k, m !! k ≠ Some 0).
Proof.
  intros Hlogs Hes Hfuel.
  exists (S (length h)), (h ++ [ODefaultDict (tally ds); ODict (tally ds)]), (tally ds).
  split; [by apply (analyze_logs_run h logs es ds fuel)|].
  split; [by rewrite (lookup_new _ _ 1) by lia|].
  split.
  { intros s. rewrite <- occurrences_entries_with_level. apply tally_lookup. }
  split; [apply tally_lookup|].
  split; [by rewrite values_sum_tally, (Forall2_length _ _ _ Hes)|].
  intros k Hk. apply tally_positive in Hk. lia.
Qed.

Lemma log_store_entries :
  Forall2 (λ e d, log_store !! e = Some (OEntry d))
    (seq 0 (length log_data)) log_data.
Proof. repeat constructor. Qed.

Lemma analyze_logs_spec_witness :
  ∃ result h' (m : gmap key Z),
    analyze_logs 10 9%nat log_store = Ok result h'
    ∧ h' !! result = Some (ODict m)
    ∧ m !! KStr "INFO" = Some 4
    ∧ m !! KStr "WARNING" = Some 2
    ∧ m !! KStr "ERROR" = Some 2
    ∧ m !! KStr "DEBUG" = Some 1
    ∧ m !! KStr "UNKNOWN" = None
    ∧ values_sum m = 9.
Proof.
  destruct (analyze_logs_spec log_store 9%nat (seq 0 (length log_data))
              log_data 10) as (result & h' & m & Hrun & Hm & Hs & _ & Hsum & _).
  - reflexivity.
  - apply log_store_entries.
  - simpl. lia.
  - exists result, h', m. split; [exact Hrun|]. split; [exact Hm|].
    rewrite !Hs. repeat split. exact Hsum.
Defined.

End AnalyzeLogs.

(** ** The challenge functions and their arguments *)

Section Frame.

Lemma unchanged_app {Obj} (h ext : heap Obj) : unchanged h (h ++ ext).
Proof. intros l o. apply lookup_old. Qed.

Lemma fresh_new {Obj} (h : heap Obj) n : fresh h (length h + n)%nat.
Proof. apply lookup_ge_None. lia. Qed.

(** C6: each challenge reference function returns collections it has
    newly built and leaves its arguments, and every other object that
    existed before the call, as they were: [compare_features] its two
    lists, [filter_passing_students] its list of student tuples,
    [analyze_logs] its list of log entries and every dictionary in
    it. *)
Theorem challenge_functions_frame :
  (∀ (h : heap Sets.obj) v1 v2 xs1 xs2,
     h !! v1 = Some (Sets.OList xs1) →
     h !! v2 = Some (Sets.OList xs2) →
     ∃ common unique1 unique2 h',
       Sets.compare_features v1 v2 h = Ok (common, unique1, unique2) h'
       ∧ unchanged h h'
       ∧ h' !! v1 = Some (Sets.OList xs1)
       ∧ h' !! v2 = Some (Sets.OList xs2)
       ∧ fresh h common ∧ fresh h unique1 ∧ fresh h unique2
       ∧ NoDup [common; unique1; unique2]
       ∧ Forall (λ l, ∃ s, h' !! l = Some (Sets.OSet s))
           [common; unique1; unique2])
  ∧ (∀ (h : heap Tuples.obj) students xs passing_grade fuel,
       h !! students = Some xs →
       (length xs < fuel)%nat →
       ∃ passing_students h',
         Tuples.filter_passing_students fuel students passing_grade h
           = Ok passing_students h'
         ∧ unchanged h h'
         ∧ h' !! students = Some xs
         ∧ fresh h passing_students
         ∧ h' !! passing_students
           = Some (filter (λ s, Tuples.passes passing_grade s = true) xs))
  ∧ (∀ (h : heap Dictionary.obj) logs es ds fuel,
       h !! logs = Some (Dictionary.OList es) →
       Forall2 (λ e d, h !! e = Some (Dictionary.OEntry d)) es ds →
       (length es < fuel)%nat →
       ∃ result h',
         Dictionary.analyze_logs fuel logs h = Ok result h'
         ∧ unchanged h h'
         ∧ h' !! logs = Some (Dictionary.OList es)
         ∧ Forall2 (λ e d, h' !! e = Some (Dictionary.OEntry d)) es ds
         ∧ fresh h result
         ∧ ∃ m, h' !! result = Some (Dictionary.ODict m)).
Proof.
  split; [|split].
  - intros h v1 v2 xs1 xs2 H1 H2.
    eexists _, _, _, _.
    split; [by apply (compare_features_run h v1 v2 xs1 xs2)|].
    split; [apply unchanged_app|].
    split; [by apply lookup_old|].
    split; [by apply lookup_old|].
    do 3 (split; [apply fresh_new|]).
    split.
    + rewrite !NoDup_cons, !elem_of_cons, !elem_of_nil.
      repeat split; [lia..|apply NoDup_nil_2].
    + repeat constructor; eexists; by apply lookup_new_Some_here.
  - intros h students xs passing_grade fuel Hs Hfuel.
    eexists _, _.
    split; [by apply (filter_passing_students_run h students xs)|].
    split; [apply unchanged_app|].
    split; [by apply lookup_old|].
    split; [apply lookup_ge_None; lia|apply lookup_first_new].
  - intros h logs es ds fuel Hlogs Hes Hfuel.
    eexists _, _.
    split; [by apply (analyze_logs_run h logs es ds fuel)|].
    split; [apply unchanged_app|].
    split; [by apply lookup_old|].
    split; [|split].
    + eapply Forall2_impl; [exact Hes|]. intros e d. apply lookup_old.
    + apply lookup_ge_None. lia.
    + eexists. by rewrite (lookup_new _ _ 1) by lia.
Qed.

Lemma challenge_functions_frame_witness :
  (∃ common unique1 unique2 h',
     Sets.compare_features 0%nat 1%nat Sets.features_store
       = Ok (common, unique1, unique2) h'
     ∧ unchanged Sets.features_store h'
     ∧ h' !! 0%nat = Some (Sets.OList Sets.features_v1)
     ∧ h' !! 1%nat = Some (Sets.OList Sets.features_v2)
     ∧ fresh Sets.features_store common
     ∧ fresh Sets.features_store unique1
     ∧ fresh Sets.features_store unique2
     ∧ NoDup [common; unique1; unique2]
     ∧ Forall (λ l, ∃ s, h' !! l = Some (Sets.OSet s))
         [common; unique1; unique2])
  ∧ (∃ passing_students h',
       Tuples.filter_passing_students 7 0%nat None [Tuples.student_tuples]
         = Ok passing_students h'
       ∧ unchanged [Tuples.student_tuples] h'
       ∧ h' !! 0%nat = Some Tuples.student_tuples
       ∧ fresh [Tuples.student_tuples] passing_students
       ∧ h' !! passing_students
         = Some (filter (λ s, Tuples.passes None s = true) Tuples.student_tuples))
  ∧ (∃ result h',
       Dictionary.analyze_logs 10 9%nat Dictionary.log_store = Ok result h'
       ∧ unchanged Dictionary.log_store h'
       ∧ h' !! 9%nat
           = Some (Dictionary.OList (seq 0 (length Dictionary.log_data)))
       ∧ Forall2 (λ e d, h' !! e = Some (Dictionary.OEntry d))
           (seq 0 (length Dictionary.log_data)) Dictionary.log_data
       ∧ fresh Dictionary.log_store result
       ∧ ∃ m, h' !! result = Some (Dictionary.ODict m)).
Proof.
  destruct challenge_functions_frame as (Hsets & Htuples & Hlogs).
  split; [|split].
  - apply (Hsets Sets.features_store 0%nat 1%nat); reflexivity.
  - apply (Htuples [Tuples.student_tuples] 0%nat Tuples.student_tuples None 7%nat);
      [reflexivity | simpl; lia].
  - apply (Hlogs Dictionary.log_store 9%nat
             (seq 0 (length Dictionary.log_data)) Dictionary.log_data 10%nat);
      [reflexivity | apply log_store_entries | simpl; lia].
Defined.

End Frame.

(** ** Default arguments *)

Section DefaultArguments.
Import Scoping.

Lemma append_Ok (h : heap obj) l xs item :
  h !! l = Some (OList xs) →
  append l item h = Ok tt (<[l := OList (xs ++ [item])]> h).
Proof.
  intros Hl. unfold append.
  rewrite (bind_Ok _ _ _ _ _ (read_Ok _ _ _ Hl)).
  by rewrite (write_Ok _ _ _ _ Hl).
Qed.

(** A call of [add_item_good] without list allocates a list and
    returns it with the item in it, whatever the store holds. *)
Lemma add_item_good_None (h : heap obj) item :
  add_item_good item None h = Ok (length h) (h ++ [OList [item]]).
Proof.
  unfold add_item_good.
  rewrite (bind_Ok _ _ h (length h) (h ++ [OList []])) by done.
  erewrite bind_Ok by apply append_Ok, lookup_first_new.
  by rewrite insert_first_new.
Qed.

(** A call of [add_item_bad] without list appends to the list the
    function was defined with, and returns that list. *)
Lemma add_item_bad_None (h : heap obj) self xs item :
  h !! target_list_default self = Some (OList xs) →
  add_item_bad self item None h =
    Ok (target_list_default self)
       (<[target_list_default self := OList (xs ++ [item])]> h).
Proof.
  intros Hd. unfold add_item_bad. simpl.
  by erewrite bind_Ok by apply append_Ok, Hd.
Qed.

(** C9: a call of [add_item_good] without [target_list] returns a new
    list holding just its item, in every store, that is after any
    number of earlier calls; two calls of [add_item_bad] without
    [target_list] return the same list object, which after the second
    call holds both items. *)
Theorem default_argument_sharing :
  (∀ (h : heap obj) item,
     ∃ l h', add_item_good item None h = Ok l h'
             ∧ fresh h l ∧ unchanged h h'
             ∧ h' !! l = Some (OList [item]))
  ∧ (∀ (h : heap obj) a b,
       (l1 ← add_item_good a None;
        l2 ← add_item_good b None;
        mret (l1, l2)) h
       = Ok (length h, S (length h)) (h ++ [OList [a]; OList [b]]))
  ∧ (∀ (h : heap obj) a b,
       (f ← def_add_item_bad;
        l1 ← add_item_bad f a None;
        l2 ← add_item_bad f b None;
        mret (l1, l2)) h
       = Ok (length h, length h) (h ++ [OList [a; b]]))
  ∧ default_argument_cell [] =
      Ok (0, 0, 1, 2)%nat
         [OList ["apple"; "banana"]; OList ["cherry"]; OList ["date"]].
Proof.
  split; [|split; [|split]].
  - intros h item. exists (length h), (h ++ [OList [item]]).
    split; [apply add_item_good_None|].
    split; [apply lookup_ge_None; lia|].
    split; [intros l o; apply lookup_old|apply lookup_first_new].
  - intros h a b.
    rewrite (bind_Ok _ _ _ _ _ (add_item_good_None h a)).
    rewrite (bind_Ok _ _ _ _ _ (add_item_good_None _ b)).
    unfold mret, M_ret. rewrite length_app, <- app_assoc. simpl.
    by rewrite Nat.add_1_r.
  - intros h a b.
    rewrite (bind_Ok _ _ h {| target_list_default := length h |} (h ++ [OList []]))
      by done.
    erewrite bind_Ok by (apply add_item_bad_None; apply lookup_first_new).
    simpl. rewrite insert_first_new.
    erewrite bind_Ok by (apply add_item_bad_None; apply lookup_first_new).
    simpl. by rewrite insert_first_new.
  - reflexivity.
Qed.

End DefaultArguments.

(** ** Closures *)

Section Closures.

Lemma make_adder_Ok (h : heap Scoping.obj) n :
  Scoping.make_adder n h
  = Ok {| Scoping.adder_n := length h |} (h ++ [Scoping.OCell n]).
Proof. reflexivity. Qed.

(** A closure reads its own cell: the result of a call depends on the
    store only through it. *)
Lemma adder_Ok (h : heap Scoping.obj) f n x :
  h !! Scoping.adder_n f = Some (Scoping.OCell n) →
  Scoping.adder f x h = Ok (x + n) h.
Proof.
  intros Hf. unfold Scoping.adder, Scoping.cell_contents.
  erewrite bind_Ok; [reflexivity|].
  by rewrite (bind_Ok _ _ _ _ _ (read_Ok _ _ _ Hf)).
Qed.

Lemma make_multiplier_Ok (h : heap Lambda.obj) n :
  Lambda.make_multiplier n h
  = Ok {| Lambda.multiplier_n := length h |} (h ++ [n]).
Proof. reflexivity. Qed.

Lemma multiplier_Ok (h : heap Lambda.obj) f n x :
  h !! Lambda.multiplier_n f = Some n →
  Lambda.multiplier f x h = Ok (x * n) h.
Proof.
  intros Hf. unfold Lambda.multiplier.
  by rewrite (bind_Ok _ _ _ _ _ (read_Ok _ _ _ Hf)).
Qed.

(** C7: the closure that [make_adder n] returns maps [x] to [x + n] and
    the one that [make_multiplier n] returns maps [x] to [x * n]; two
    closures from two calls have cells of their own, and each keeps
    computing with the value it has captured whatever the other was
    made with. *)
Theorem closures_capture_per_call :
  (∀ (h : heap Scoping.obj) n x,
     (f ← Scoping.make_adder n ; Scoping.adder f x) h
     = Ok (x + n) (h ++ [Scoping.OCell n]))
  ∧ (∀ (h : heap Lambda.obj) n x,
       (f ← Lambda.make_multiplier n ; Lambda.multiplier f x) h
       = Ok (x * n) (h ++ [n]))
  ∧ (∀ (h : heap Scoping.obj) n m x y,
       (f ← Scoping.make_adder n;
        g ← Scoping.make_adder m;
        a ← Scoping.adder f x;
        b ← Scoping.adder g y;
        a' ← Scoping.adder f x;
        mret (Scoping.adder_n f, Scoping.adder_n g, a, b, a')) h
       = Ok (length h, S (length h), x + n, y + m, x + n)
            (h ++ [Scoping.OCell n; Scoping.OCell m]))
  ∧ (∀ (h : heap Lambda.obj) n m x y,
       (f ← Lambda.make_multiplier n;
        g ← Lambda.make_multiplier m;
        a ← Lambda.multiplier f x;
        b ← Lambda.multiplier g y;
        a' ← Lambda.multiplier f x;
        mret (Lambda.multiplier_n f, Lambda.multiplier_n g, a, b, a')) h
       = Ok (length h, S (length h), x * n, y * m, x * n) (h ++ [n; m]))
  ∧ Scoping.closure_cell [] = Ok (15, 25, 110, 5) [Scoping.OCell 5; Scoping.OCell 100]
  ∧ Lambda.multiplier_cell [] = Ok (20, 30) [2; 3].
Proof.
  split; [|split; [|split; [|split; [|split]]]]; try reflexivity.
  - intros h n x.
    rewrite (bind_Ok _ _ _ _ _ (make_adder_Ok h n)).
    apply adder_Ok, lookup_first_new.
  - intros h n x.
    rewrite (bind_Ok _ _ _ _ _ (make_multiplier_Ok h n)).
    apply multiplier_Ok, lookup_first_new.
  - intros h n m x y.
    rewrite (bind_Ok _ _ _ _ _ (make_adder_Ok h n)).
    rewrite (bind_Ok _ _ _ _ _ (make_adder_Ok _ m)).
    rewrite length_app, <- app_assoc, Nat.add_1_r. simpl.
    erewrite bind_Ok by (apply (adder_Ok _ _ n); apply lookup_first_new).
    erewrite bind_Ok by
      (apply (adder_Ok _ _ m), (lookup_new_Some _ _ 1);
         [symmetry; apply Nat.add_1_r|done]).
    erewrite bind_Ok by (apply (adder_Ok _ _ n); apply lookup_first_new).
    reflexivity.
  - intros h n m x y.
    rewrite (bind_Ok _ _ _ _ _ (make_multiplier_Ok h n)).
    rewrite (bind_Ok _ _ _ _ _ (make_multiplier_Ok _ m)).
    rewrite length_app, <- app_assoc, Nat.add_1_r. simpl.
    erewrite bind_Ok by (apply (multiplier_Ok _ _ n); apply lookup_first_new).
    erewrite bind_Ok by
      (apply (multiplier_Ok _ _ m), (lookup_new_Some _ _ 1);
         [symmetry; apply Nat.add_1_r|done]).
    erewrite bind_Ok by (apply (multiplier_Ok _ _ n); apply lookup_first_new).
    reflexivity.
Qed.

End Closures.

(** ** Dictionary access *)

Section DictionaryAccess.
Import Dictionary.

(** C4: [d[k]] raises exactly when [k] is not a key of [d], and what
    it raises is [KeyError]; [d.get(k)] gives the value of a key that
    is there and [None] for one that is not; [d.get(k, default)] gives
    [default] for a key that is not there; the access cell handles the
    [KeyError] it provokes and ends without exception. *)
Theorem dictionary_access :
  (∀ (d : gmap string value) k,
     (∃ e, getitem d k = inl e) ↔ d !! k = None)
  ∧ (∀ (d : gmap string value) k e,
       getitem d k = inl e → e = KeyError k)
  ∧ (∀ (d : gmap string value) k v,
       d !! k = Some v →
       getitem d k = inr v
       ∧ get d k None = v
       ∧ ∀ default, get d k (Some default) = v)
  ∧ (∀ (d : gmap string value) k,
       d !! k = None →
       get d k None = VNone
       ∧ ∀ default, get d k (Some default) = default)
  ∧ getitem settings "fontFamily" = inl (KeyError "fontFamily")
  ∧ access_cell =
      inr {| current_theme := VStr "dark";
             font_family_in_try := None;
             font_size := VInt 12;
             font_family := VNone;
             font_family_defaulted := VStr "Monospace" |}.
Proof.
  split; [|split; [|split; [|split; [|split]]]].
  - intros d k. unfold getitem. destruct (d !! k).
    + split; [intros [e He]; discriminate|discriminate].
    + split; [done|]. intros _. by eexists.
  - intros d k e. unfold getitem. destruct (d !! k); [discriminate|].
    by intros [= <-].
  - intros d k v Hk. unfold getitem, get. by rewrite Hk.
  - intros d k Hk. unfold get. by rewrite Hk.
  - reflexivity.
  - reflexivity.
Qed.

Lemma dictionary_access_witness :
  ((∃ e, getitem settings "fontFamily" = inl e)
   ∧ getitem settings "fontFamily" = inl (KeyError "fontFamily"))
  ∧ (getitem settings "fontSize" = inr (VInt 12)
     ∧ get settings "fontSize" None = VInt 12
     ∧ ∀ default, get settings "fontSize" (Some default) = VInt 12)
  ∧ (get settings "fontFamily" None = VNone
     ∧ ∀ default, get settings "fontFamily" (Some default) = default).
Proof.
  destruct dictionary_access as (Hraise & Hkey & Hthere & Hmissing & _).
  split; [split|split].
  - apply (Hraise settings "fontFamily"). reflexivity.
  - reflexivity.
  - apply (Hthere settings "fontSize" (VInt 12)). reflexivity.
  - apply (Hmissing settings "fontFamily"). reflexivity.
Defined.

End DictionaryAccess.

(** ** Conditional formatting *)

Section ConditionalFormatting.
Import Lambda.

Lemma digit_value_digit d : 0 ≤ d < 10 → digit_value (digit d) = Some d.
Proof.
  intros Hd.
  assert (d = 0 ∨ d = 1 ∨ d = 2 ∨ d = 3 ∨ d = 4 ∨ d = 5 ∨ d = 6 ∨ d = 7
          ∨ d = 8 ∨ d = 9) as Hcases by lia.
  repeat (destruct Hcases as [-> | Hcases]; [reflexivity|]).
  by subst.
Qed.

Lemma digit_not_zero_or_dash d :
  1 ≤ d < 10 →
  Ascii.eqb (digit d) "0" = false ∧ Ascii.eqb (digit d) "-" = false.
Proof.
  intros Hd.
  assert (d = 1 ∨ d = 2 ∨ d = 3 ∨ d = 4 ∨ d = 5 ∨ d = 6 ∨ d = 7
          ∨ d = 8 ∨ d = 9) as Hcases by lia.
  repeat (destruct Hcases as [-> | Hcases]; [by split|]).
  by subst.
Qed.

(** Read as a numeral, the digits that [digits] puts in front of [acc]
    shift the value read so far and add [n]. *)
Lemma digits_value_digits fuel n acc a :
  0 ≤ n < 10 ^ Z.of_nat fuel →
  ∃ k : nat,
    digits_value (digits fuel n acc) a
    = digits_value acc (a * 10 ^ Z.of_nat k + n).
Proof.
  revert n acc a. induction fuel as [|fuel IH]; intros n acc a Hn.
  - exists 0%nat. change (10 ^ Z.of_nat 0) with 1 in *.
    cbn [digits]. f_equal. lia.
  - rewrite Nat2Z.inj_succ, Z.pow_succ_r in Hn by lia.
    pose proof (Z.mod_pos_bound n 10 ltac:(lia)) as Hmod.
    pose proof (Z.div_mod n 10 ltac:(lia)) as Hdiv.
    cbn [digits]. destruct (n / 10 =? 0) eqn:Hq.
    + exists 1%nat. cbn [digits_value]. rewrite digit_value_digit by done.
      apply Z.eqb_eq in Hq. f_equal. change (10 ^ Z.of_nat 1) with 10. lia.
    + destruct (IH (n / 10) (String (digit (n mod 10)) acc) a) as [k Hk].
      { split; [apply Z.div_pos; lia|].
        apply Z.div_lt_upper_bound; lia. }
      exists (S k). rewrite Hk. cbn [digits_value].
      rewrite digit_value_digit by done.
      f_equal. rewrite Nat2Z.inj_succ, Z.pow_succ_r by lia. lia.
Qed.

(** The numeral of a positive number starts with a digit that is not
    0. *)
Lemma digits_first fuel n acc :
  0 < n < 10 ^ Z.of_nat fuel →
  ∃ d rest, 1 ≤ d < 10 ∧ digits fuel n acc = String (digit d) rest.
Proof.
  revert n acc. induction fuel as [|fuel IH]; intros n acc Hn.
  - change (10 ^ Z.of_nat 0) with 1 in Hn. lia.
  - rewrite Nat2Z.inj_succ, Z.pow_succ_r in Hn by lia.
    pose proof (Z.mod_pos_bound n 10 ltac:(lia)) as Hmod.
    pose proof (Z.div_mod n 10 ltac:(lia)) as Hdiv.
    cbn [digits]. destruct (n / 10 =? 0) eqn:Hq.
    + apply Z.eqb_eq in Hq. exists (n mod 10), acc. split; [lia|done].
    + apply Z.eqb_neq in Hq.
      assert (0 ≤ n / 10) by (apply Z.div_pos; lia).
      apply IH. split; [lia|]. apply Z.div_lt_upper_bound; lia.
Qed.

(** [log2 n + 1] digits are enough for [n]. *)
Lemma str_nonneg_fuel n :
  0 ≤ n → n < 10 ^ Z.of_nat (S (Z.to_nat (Z.log2 n))).
Proof.
  intros Hn. rewrite Nat2Z.inj_succ, Z2Nat.id by apply Z.log2_nonneg.
  destruct (decide (n = 0)) as [->|Hne]; [done|].
  pose proof (Z.log2_spec n ltac:(lia)) as [_ Hlt].
  pose proof (Z.log2_nonneg n).
  eapply Z.lt_le_trans; [exact Hlt|].
  apply Z.pow_le_mono_l. lia.
Qed.

Lemma natural_value_str_nonneg n :
  0 ≤ n → natural_value (str_nonneg n) = Some n.
Proof.
  intros Hn. destruct (decide (n = 0)) as [->|Hne]; [reflexivity|].
  pose proof (str_nonneg_fuel n Hn) as Hfuel. unfold str_nonneg.
  destruct (digits_first (S (Z.to_nat (Z.log2 n))) n "") as (d & rest & Hd & Hfirst);
    [lia|].
  destruct (digits_value_digits (S (Z.to_nat (Z.log2 n))) n "" 0) as [k Hk];
    [lia|].
  unfold natural_value. rewrite Hfirst.
  rewrite (proj1 (digit_not_zero_or_dash d Hd)). cbn [andb].
  rewrite <- Hfirst, Hk. reflexivity.
Qed.

(** [decimal] gives a decimal numeral of its argument. *)
Lemma decimal_value_str x : decimal_value (decimal x) = Some x.
Proof.
  unfold decimal. destruct (x <? 0) eqn:Hneg.
  - apply Z.ltb_lt in Hneg. unfold decimal_value.
    change (Ascii.eqb "-" "-") with true. cbv iota.
    rewrite natural_value_str_nonneg by lia.
    rewrite (proj2 (Z.ltb_lt 0 (- x))) by lia. f_equal. lia.
  - apply Z.ltb_ge in Hneg.
    pose proof (natural_value_str_nonneg x Hneg) as Hnat.
    destruct (decide (x = 0)) as [->|Hne]; [reflexivity|].
    pose proof (str_nonneg_fuel x Hneg) as Hfuel. unfold str_nonneg in *.
    destruct (digits_first (S (Z.to_nat (Z.log2 x))) x "") as (d & rest & Hd & Hfirst);
      [lia|].
    unfold decimal_value. rewrite Hfirst.
    rewrite (proj2 (digit_not_zero_or_dash d Hd)).
    by rewrite <- Hfirst.
Qed.

(** *** A decimal numeral is the only one for its value *)

Lemma digit_value_range c d : digit_value c = Some d → 0 ≤ d < 10.
Proof.
  unfold digit_value. intros Hd.
  destruct (_ && _) eqn:Hc; [|discriminate].
  apply andb_true_iff in Hc as [?%Z.leb_le ?%Z.leb_le].
  injection Hd as <-. lia.
Qed.

Lemma digit_value_inj c1 c2 d :
  digit_value c1 = Some d → digit_value c2 = Some d → c1 = c2.
Proof.
  unfold digit_value. intros H1 H2.
  destruct (_ && _) in H1; [|discriminate].
  destruct (_ && _) in H2; [|discriminate].
  injection H1 as H1. injection H2 as H2.
  rewrite <- (ascii_nat_embedding c1), <- (ascii_nat_embedding c2).
  f_equal. lia.
Qed.

(** Digits read after the value [a] shift [a] by their number and add
    their own value. *)
Lemma digits_value_acc s a :
  digits_value s a
  = (λ w, a * 10 ^ Z.of_nat (String.length s) + w) <$> digits_value s 0.
Proof.
  revert a. induction s as [|c s IH]; intros a.
  - cbn. f_equal. lia.
  - cbn [digits_value String.length]. destruct (digit_value c) as [d|]; [|done].
    rewrite (IH (10 * a + d)), (IH (10 * 0 + d)).
    destruct (digits_value s 0) as [w|]; [|done].
    cbn. f_equal. rewrite Nat2Z.inj_succ, Z.pow_succ_r by lia. lia.
Qed.

Lemma digits_value_bound s w :
  digits_value s 0 = Some w → 0 ≤ w < 10 ^ Z.of_nat (String.length s).
Proof.
  revert w. induction s as [|c s IH]; intros w.
  - cbn. intros [= <-]. lia.
  - cbn [digits_value String.length].
    destruct (digit_value c) as [d|] eqn:Hd; [|discriminate].
    apply digit_value_range in Hd. rewrite digits_value_acc.
    destruct (digits_value s 0) as [w'|]; [|discriminate].
    cbn. intros [= <-]. specialize (IH w' eq_refl).
    rewrite Nat2Z.inj_succ, Z.pow_succ_r by lia. nia.
Qed.

(** Two strings of digits of the same length and value are equal. *)
Lemma digits_value_inj s1 s2 w :
  String.length s1 = String.length s2 →
  digits_value s1 0 = Some w → digits_value s2 0 = Some w → s1 = s2.
Proof.
  revert s2 w. induction s1 as [|c1 s1 IH]; intros [|c2 s2] w Hlen; try done.
  injection Hlen as Hlen. cbn [digits_value].
  destruct (digit_value c1) as [d1|] eqn:Hd1; [|discriminate].
  destruct (digit_value c2) as [d2|] eqn:Hd2; [|discriminate].
  rewrite (digits_value_acc s1), (digits_value_acc s2), <- Hlen.
  destruct (digits_value s1 0) as [w1|] eqn:Hw1; [|discriminate].
  destruct (digits_value s2 0) as [w2|] eqn:Hw2; [|discriminate].
  cbn. intros [= <-] [= Heq].
  pose proof (digits_value_bound s1 w1 Hw1) as Hb1.
  pose proof (digits_value_bound s2 w2 Hw2) as Hb2.
  rewrite <- Hlen in Hb2.
  pose proof (digit_value_range _ _ Hd1). pose proof (digit_value_range _ _ Hd2).
  assert (d1 = d2) as ->.
  { revert Heq Hb1 Hb2. generalize (10 ^ Z.of_nat (String.length s1)).
    intros P Heq Hb1 Hb2.
    destruct (Z.lt_trichotomy d1 d2) as [Hlt|[Heq'|Hlt]]; [nia|done|nia]. }
  assert (w1 = w2) as -> by lia.
  f_equal; [by eapply digit_value_inj|by eapply IH].
Qed.

(** A numeral without sign is "0", or starts with a digit that is not 0
    and then has a value of as many digits as it is long. *)
Lemma natural_value_cases s n :
  natural_value s = Some n →
  (s = "0" ∧ n = 0)
  ∨ (10 ^ (Z.of_nat (String.length s) - 1) ≤ n < 10 ^ Z.of_nat (String.length s)
     ∧ (0 < String.length s)%nat ∧ digits_value s 0 = Some n).
Proof.
  destruct s as [|c s]; [done|]. unfold natural_value.
  destruct (Ascii.eqb c "0") eqn:Hc0.
  - apply Ascii.eqb_eq in Hc0 as ->.
    destruct s as [|c' s]; [|done]. cbn. intros [= <-]. by left.
  - cbn [andb]. intros Hn. right.
    split; [|split; [cbn; lia|done]].
    split; [|by apply digits_value_bound].
    cbn [digits_value String.length] in *.
    destruct (digit_value c) as [d|] eqn:Hd; [|discriminate].
    assert (d ≠ 0) as Hd0.
    { intros ->. apply Ascii.eqb_neq in Hc0. apply Hc0.
      by apply (digit_value_inj c "0" 0). }
    apply digit_value_range in Hd. rewrite digits_value_acc in Hn.
    destruct (digits_value s 0) as [w|] eqn:Hw; [|discriminate].
    injection Hn as <-. apply digits_value_bound in Hw.
    replace (Z.of_nat (S (String.length s)) - 1) with (Z.of_nat (String.length s)) by lia.
    nia.
Qed.

Lemma natural_value_inj s1 s2 n :
  natural_value s1 = Some n → natural_value s2 = Some n → s1 = s2.
Proof.
  intros H1 H2.
  destruct (natural_value_cases _ _ H1) as [[-> ->]|(Hb1 & Hl1 & Hv1)],
           (natural_value_cases _ _ H2) as [[-> Hn]|(Hb2 & Hl2 & Hv2)];
    try done.
  - assert (0 < 10 ^ (Z.of_nat (String.length s2) - 1))
      by (apply Z.pow_pos_nonneg; lia). lia.
  - assert (0 < 10 ^ (Z.of_nat (String.length s1) - 1))
      by (apply Z.pow_pos_nonneg; lia). lia.
  - apply (digits_value_inj s1 s2 n); [|done..].
    destruct (Nat.lt_trichotomy (String.length s1) (String.length s2))
      as [Hlt|[Heq|Hlt]]; [|done|].
    + assert (10 ^ Z.of_nat (String.length s1)
              ≤ 10 ^ (Z.of_nat (String.length s2) - 1))
        by (apply Z.pow_le_mono_r; lia). lia.
    + assert (10 ^ Z.of_nat (String.length s2)
              ≤ 10 ^ (Z.of_nat (String.length s1) - 1))
        by (apply Z.pow_le_mono_r; lia). lia.
Qed.

Lemma natural_value_nonneg s n : natural_value s = Some n → 0 ≤ n.
Proof.
  intros [[_ ->]|(_ & _ & Hv)]%natural_value_cases; [done|].
  apply digits_value_bound in Hv. lia.
Qed.

(** [decimal x] is the one decimal numeral of [x]. *)
Lemma decimal_value_unique s x : decimal_value s = Some x ↔ s = decimal x.
Proof.
  split; [|intros ->; apply decimal_value_str].
  destruct s as [|c s]; [done|]. unfold decimal_value.
  destruct (Ascii.eqb c "-") eqn:Hc.
  - apply Ascii.eqb_eq in Hc as ->.
    destruct (natural_value s) as [v|] eqn:Hv; [|done].
    destruct (0 <? v) eqn:Hpos; [|done]. apply Z.ltb_lt in Hpos.
    intros [= <-]. unfold decimal. rewrite (proj2 (Z.ltb_lt _ _)) by lia.
    f_equal. rewrite Z.opp_involutive.
    apply (natural_value_inj _ _ v Hv). apply natural_value_str_nonneg. lia.
  - intros Hv. pose proof (natural_value_nonneg _ _ Hv) as Hx.
    unfold decimal. rewrite (proj2 (Z.ltb_ge _ _)) by lia.
    apply (natural_value_inj _ _ x Hv). by apply natural_value_str_nonneg.
Qed.

(** [list(map(func, xs))] asks [length xs + 1] times and collects
    [func] of every item. *)
Lemma list_from_py_map {A B} (func : A → B) fuel xs acc :
  (length xs < fuel)%nat →
  list_from fuel (py_map func xs) acc = Some (acc ++ map func xs).
Proof.
  revert xs acc. induction fuel as [|fuel IH]; intros xs acc Hfuel; [lia|].
  destruct xs as [|x xs]; simpl.
  - by rewrite app_nil_r.
  - change (list_from fuel (py_map func xs) (acc ++ [func x])
            = Some (acc ++ func x :: map func xs)).
    rewrite IH by (simpl in Hfuel; lia). by rewrite <- app_assoc.
Qed.

(** A comprehension collects its element expression for every item. *)
Lemma comprehension_map {A B} (expr : A → B) xs acc :
  fold_left (λ acc x, acc ++ [expr x]) xs acc = acc ++ map expr xs.
Proof.
  revert acc. induction xs as [|x xs IH]; intros acc; simpl.
  - by rewrite app_nil_r.
  - by rewrite IH, <- app_assoc.
Qed.

(** With a function that can raise, [list(map(func, xs))] does what the
    comprehension does: the same list, or the same exception. *)
Lemma list_from_raising_py_map {A B} (func : A → exn + B) fuel xs acc :
  (length xs < fuel)%nat →
  list_from_raising fuel (py_map func xs) acc = comprehension func xs acc.
Proof.
  revert xs acc. induction fuel as [|fuel IH]; intros xs acc Hfuel; [lia|].
  destruct xs as [|x xs]; [done|].
  cbn [list_from_raising next py_map map_rest map_func comprehension].
  destruct (func x) as [e|y]; [done|]. cbn [mbind exn_bind].
  apply (IH xs). simpl in Hfuel. lia.
Qed.

Lemma comprehension_all {A B} (expr : A → exn + B) (f : A → B) xs acc :
  Forall (λ x, expr x = inr (f x)) xs →
  comprehension expr xs acc = inr (acc ++ map f xs).
Proof.
  intros Hall. revert acc.
  induction Hall as [|x xs Hx _ IH]; intros acc; cbn [comprehension map].
  - by rewrite app_nil_r.
  - rewrite Hx. cbn [mbind exn_bind]. by rewrite IH, <- app_assoc.
Qed.

Lemma comprehension_raises {A B} (expr : A → exn + B) e xs acc :
  Forall (λ x, (∃ y, expr x = inr y) ∨ expr x = inl e) xs →
  Exists (λ x, expr x = inl e) xs →
  comprehension expr xs acc = inl e.
Proof.
  intros Hall Hex. revert acc.
  induction Hall as [|x xs Hx _ IH]; intros acc; [by inversion Hex|].
  cbn [comprehension]. destruct Hx as [[y Hy]| ->]; [|done].
  rewrite Hy. cbn [mbind exn_bind]. apply IH.
  inversion Hex as [? ? Hx|]; subst; [congruence|done].
Qed.

Lemma str_within x : Z.abs x < 10 ^ 4300 → str x = inr (decimal x).
Proof.
  intros Hx. unfold str, int_max_str_digits.
  by rewrite (proj2 (Z.leb_gt _ _) Hx).
Qed.

Lemma str_beyond x : 10 ^ 4300 ≤ Z.abs x → str x = inl ValueError.
Proof.
  intros Hx. unfold str, int_max_str_digits.
  by rewrite (proj2 (Z.leb_le _ _) Hx).
Qed.

Lemma format_lambda_within x :
  Z.abs x < 10 ^ 4300 →
  format_lambda x
  = inr (decimal x +:+ (if Z.even x then " (even)" else " (odd)")).
Proof.
  intros Hx. unfold format_lambda. rewrite Zmod_even, (str_within x Hx).
  by destruct (Z.even x).
Qed.

Lemma format_lambda_beyond x :
  10 ^ 4300 ≤ Z.abs x → format_lambda x = inl ValueError.
Proof.
  intros Hx. unfold format_lambda. rewrite (str_beyond x Hx).
  by destruct (x mod 2 =? 0).
Qed.

(** C8 (amended): for every list of integers, [map] with the lambda
    and the list comprehension do the same: when every integer has at
    most 4300 decimal digits both give the same list, each element of
    which is the decimal numeral of the corresponding [x] (the one
    string that denotes [x] in decimal notation) followed by " (even)"
    when [x] is even and by " (odd)" when it is not; when an integer
    has more digits, both raise [ValueError]. *)
Theorem conditional_formatting_equivalence (xs : list Z) :
  formatted_list xs = formatted_lc xs
  ∧ (Forall (λ x, Z.abs x < 10 ^ 4300) xs →
     ∃ outs,
       formatted_lc xs = inr outs
       ∧ Forall2
           (λ x out, ∃ numeral,
              (∀ s, decimal_value s = Some x ↔ s = numeral)
              ∧ out = numeral +:+ (if Z.even x then " (even)" else " (odd)"))
           xs outs)
  ∧ (Exists (λ x, 10 ^ 4300 ≤ Z.abs x) xs →
     formatted_lc xs = inl ValueError)
  ∧ formatted_lc numbers_to_format
    = inr ["10 (even)"; "3 (odd)"; "8 (even)"; "9 (odd)"; "4 (even)"].
Proof.
  split; [|split; [|split]].
  - unfold formatted_list. by rewrite list_from_raising_py_map by lia.
  - intros Hxs.
    exists (map (λ x, decimal x +:+ (if Z.even x then " (even)" else " (odd)"))
              xs).
    split.
    + change (formatted_lc xs) with (comprehension format_lambda xs []).
      apply (comprehension_all format_lambda _ xs []).
      eapply Forall_impl; [exact Hxs|].
      intros x Hx. by apply format_lambda_within.
    + clear Hxs. induction xs as [|x xs IH]; [constructor|].
      cbn [map]. constructor; [|exact IH].
      exists (decimal x). split; [intros s; apply decimal_value_unique|done].
  - intros Hex.
    change (formatted_lc xs) with (comprehension format_lambda xs []).
    apply (comprehension_raises format_lambda).
    + apply Forall_forall. intros x _.
      destruct (Z.lt_ge_cases (Z.abs x) (10 ^ 4300)) as [Hx|Hx].
      * left. eexists. by apply format_lambda_within.
      * right. by apply format_lambda_beyond.
    + eapply Exists_impl; [exact Hex|]. intros x Hx.
      by apply format_lambda_beyond.
  - vm_compute. reflexivity.
Qed.

Lemma conditional_formatting_equivalence_witness :
  ∃ outs,
    formatted_lc numbers_to_format = inr outs
    ∧ Forall2
        (λ x out, ∃ numeral,
           (∀ s, decimal_value s = Some x ↔ s = numeral)
           ∧ out = numeral +:+ (if Z.even x then " (even)" else " (odd)"))
        numbers_to_format outs.
Proof.
  destruct (conditional_formatting_equivalence numbers_to_format)
    as (_ & H & _).
  apply H. repeat constructor.
Defined.

(** The claim of C8 as it stands fails for an integer of 4301 digits:
    there the two expressions raise [ValueError] and give no list. *)
Lemma conditional_formatting_counterexample :
  formatted_list [10 ^ 4300] = inl ValueError
  ∧ formatted_lc [10 ^ 4300] = inl ValueError.
Proof. split; vm_compute; reflexivity. Qed.

End ConditionalFormatting.

(** ** The text of a value *)

Section FormattedValues.
Import Lambda Format.

Lemma str_value_within v :
  within_digit_limit v → ∃ s, str_value v = inr s ∧ renders v s.
Proof.
  intros Hv. destruct v as [|[]|n|t]; cbn; try (by eexists).
  exists (decimal n). rewrite str_within by (by apply Hv).
  split; [done|apply decimal_value_str].
Qed.

Lemma str_value_beyond v :
  ¬ within_digit_limit v → str_value v = inl ValueError.
Proof.
  intros Hv. destruct v as [|b|n|t]; try (by destruct Hv; intros ? [=]).
  cbn. apply str_beyond.
  destruct (Z.lt_ge_cases (Z.abs n) (10 ^ 4300)) as [Hn|Hn]; [|done].
  destruct Hv. by intros ? [= <-].
Qed.

Lemma within_digit_limit_cases v :
  within_digit_limit v ∨ ¬ within_digit_limit v.
Proof.
  destruct v as [|b|n|t]; try (by left; intros ? [=]).
  destruct (Z.lt_ge_cases (Z.abs n) (10 ^ 4300)) as [Hn|Hn].
  - left. by intros ? [= <-].
  - right. intros Hv. specialize (Hv n eq_refl).
    by apply Z.lt_nge in Hv.
Qed.

#[global] Instance within_digit_limit_dec v : Decision (within_digit_limit v).
Proof.
  destruct v as [|b|n|t]; try (by left; intros ? [=]).
  destruct (decide (Z.abs n < 10 ^ 4300)) as [Hn|Hn].
  - left. by intros ? [= <-].
  - right. intros Hv. by specialize (Hv n eq_refl).
Defined.

End FormattedValues.

(** ** Keyword-only arguments *)

Section KeywordOnly.
Import Asterisk Format.









End KeywordOnly.


(** ** [generate_pairings] *)

Section GeneratePairings.
Import Itertools.

Lemma combinations_0 {A} (pool : list A) : combinations pool 0 = [[]].
Proof. by destruct pool. Qed.

Lemma combinations_1 {A} (pool : list A) :
  combinations pool 1 = map (λ x, [x]) pool.
Proof.
  induction pool as [|x pool IH]; [done|].
  cbn [combinations]. by rewrite combinations_0, IH.
Qed.

Lemma combinations_2_cons {A} (x : A) (pool : list A) :
  combinations (x :: pool) 2
  = map (λ y, [x; y]) pool ++ combinations pool 2.
Proof.
  cbn [combinations]. f_equal. by rewrite combinations_1, map_map.
Qed.

Lemma combinations_2_short {A} (pool : list A) :
  (length pool < 2)%nat → combinations pool 2 = [].
Proof. destruct pool as [|x [|y pool]]; simpl; [done|done|lia]. Qed.

(** The pairs of positions below [S n] are those that start at 0,
    then those below [n] moved up by one. *)
Lemma index_pairs_S n :
  index_pairs (S n)
  = map (pair 0%nat) (seq 1 n)
    ++ map (λ ij, (S ij.1, S ij.2)) (index_pairs n).
Proof.
  unfold index_pairs. rewrite <- cons_seq. cbn [flat_map].
  replace (S n - 1)%nat with n by lia. f_equal.
  rewrite <- seq_shift, !flat_map_concat_map, concat_map, !map_map.
  f_equal. apply map_ext. intros i.
  replace (S n - S (S i))%nat with (n - S i)%nat by lia.
  by rewrite <- seq_shift, !map_map.
Qed.

Lemma lookup_total_seq (l : list string) :
  map (λ j, l !!! j) (seq 0 (length l)) = l.
Proof.
  induction l as [|x l IH]; [done|].
  cbn [length seq map]. f_equal.
  rewrite <- seq_shift, map_map. exact IH.
Qed.

(** The 2-element combinations of a list are its items at the pairs of
    positions, in the order of [index_pairs]. *)
Lemma combinations_2_index_pairs (teams : list string) :
  combinations teams 2
  = map (pairing_at teams) (index_pairs (length teams)).
Proof.
  induction teams as [|x teams IH]; [done|].
  rewrite combinations_2_cons. cbn [length].
  rewrite index_pairs_S, map_app, !map_map. f_equal.
  - rewrite <- (lookup_total_seq teams) at 1.
    by rewrite <- seq_shift, !map_map.
  - by rewrite IH.
Qed.

Lemma elem_of_index_pairs n i j :
  (i, j) ∈ index_pairs n ↔ (i < j < n)%nat.
Proof.
  unfold index_pairs. rewrite list_elem_of_In, in_flat_map. split.
  - intros (i' & Hi' & Hj). apply in_map_iff in Hj as (j' & [= <- <-] & Hj').
    apply in_seq in Hi', Hj'. lia.
  - intros Hij. exists i. split; [apply in_seq; lia|].
    apply in_map, in_seq. lia.
Qed.

Lemma sorted_pairs_from i a n :
  StronglySorted lex_lt (map (pair i) (seq a n)).
Proof.
  revert a. induction n as [|n IH]; intros a; [constructor|].
  cbn [seq map]. constructor; [apply IH|].
  apply Forall_forall. intros p Hp.
  apply list_elem_of_In, in_map_iff in Hp as (j & <- & Hj).
  apply in_seq in Hj. right. simpl. lia.
Qed.

Lemma index_pairs_sorted n : StronglySorted lex_lt (index_pairs n).
Proof.
  induction n as [|n IH]; [constructor|].
  rewrite index_pairs_S. apply StronglySorted_app_2.
  - intros p q Hp Hq.
    apply list_elem_of_In, in_map_iff in Hp as (j & <- & _).
    apply list_elem_of_In, in_map_iff in Hq as (q' & <- & _).
    left. simpl. lia.
  - apply sorted_pairs_from.
  - apply (StronglySorted_fmap (λ ij : nat * nat, (S ij.1, S ij.2)) lex_lt lex_lt);
      [|exact IH].
    intros p q [Hlt | [Heq Hlt]]; [left|right]; simpl; lia.
Qed.

Lemma lex_lt_irrefl p : ¬ lex_lt p p.
Proof. unfold lex_lt. lia. Qed.

Lemma sorted_NoDup (l : list (nat * nat)) : StronglySorted lex_lt l → NoDup l.
Proof.
  induction 1 as [|p l Hl IH Hp]; constructor; [|done].
  intros Hin. rewrite Forall_forall in Hp.
  exact (lex_lt_irrefl p (Hp p Hin)).
Qed.

Lemma index_pairs_length n :
  (2 * length (index_pairs n) = n * (n - 1))%nat.
Proof.
  induction n as [|n IH]; [done|].
  rewrite index_pairs_S, length_app, !length_map, length_seq. nia.
Qed.

(** Distinct teams at different pairs of positions make different
    pairings. *)
Lemma pairing_at_inj (teams : list string) i j i' j' :
  NoDup teams →
  (i < length teams)%nat → (j < length teams)%nat →
  (i' < length teams)%nat → (j' < length teams)%nat →
  teams !!! i = teams !!! i' → teams !!! j = teams !!! j' →
  i = i' ∧ j = j'.
Proof.
  intros Hnd Hi Hj Hi' Hj' Hii Hjj.
  apply list_lookup_lookup_total_lt in Hi, Hj, Hi', Hj'.
  rewrite Hii in Hi. rewrite Hjj in Hj.
  split; eapply NoDup_lookup; eauto.
Qed.

(** C2: [generate_pairings] returns the empty list for fewer than two
    teams, and in every case the list of [(teams[i], teams[j])] over
    the pairs of positions [i < j], each pair of positions once and in
    lexicographic order; the result has [n * (n - 1) / 2] elements, and
    when the teams are distinct no pairing is repeated and none appears
    in both orders. *)
Theorem generate_pairings_spec (teams : list string) :
  let n := length teams in
  ((n < 2)%nat → generate_pairings teams = [])
  ∧ generate_pairings teams = map (pairing_at teams) (index_pairs n)
  ∧ (∀ i j, (i, j) ∈ index_pairs n ↔ (i < j < n)%nat)
  ∧ NoDup (index_pairs n)
  ∧ StronglySorted lex_lt (index_pairs n)
  ∧ length (generate_pairings teams) = (n * (n - 1) / 2)%nat
  ∧ (NoDup teams →
     NoDup (generate_pairings teams)
     ∧ ∀ a b, [a; b] ∈ generate_pairings teams →
              [b; a] ∉ generate_pairings teams).
Proof.
  intros n.
  assert (Hgen : generate_pairings teams
                 = map (pairing_at teams) (index_pairs n)).
  { unfold generate_pairings. rewrite <- combinations_2_index_pairs.
    destruct (length teams <? 2)%nat eqn:Hlen; [|done].
    apply Nat.ltb_lt in Hlen. by rewrite combinations_2_short. }
  split; [|split; [exact Hgen|]].
  { intros Hn. unfold n in Hn. unfold generate_pairings.
    by rewrite (proj2 (Nat.ltb_lt _ _) Hn). }
  split; [apply elem_of_index_pairs|].
  split; [apply sorted_NoDup, index_pairs_sorted|].
  split; [apply index_pairs_sorted|].
  split.
  { rewrite Hgen, length_map.
    pose proof (index_pairs_length n) as Hlen.
    rewrite <- Hlen, Nat.mul_comm, Nat.div_mul; lia. }
  intros Hnd. rewrite Hgen. split.
  - apply (NoDup_fmap_2_strong (pairing_at teams));
      [|apply sorted_NoDup, index_pairs_sorted].
    intros [i j] [i' j'] Hij Hij' [= Hi Hj].
    apply elem_of_index_pairs in Hij, Hij'.
    destruct (pairing_at_inj teams i j i' j') as [-> ->]; (done || lia).
  - intros a b Hab Hba.
    apply list_elem_of_In, in_map_iff in Hab as ([i j] & [= <- <-] & Hij).
    apply list_elem_of_In, in_map_iff in Hba as ([i' j'] & [= Hi Hj] & Hij').
    apply list_elem_of_In, elem_of_index_pairs in Hij, Hij'.
    destruct (pairing_at_inj teams i j j' i') as [-> ->]; (done || lia).
Qed.

Lemma generate_pairings_spec_witness :
  generate_pairings [] = []
  ∧ NoDup (generate_pairings team_list)
  ∧ ∀ a b, [a; b] ∈ generate_pairings team_list →
           [b; a] ∉ generate_pairings team_list.
Proof.
  destruct (generate_pairings_spec []) as (Hshort & _).
  destruct (generate_pairings_spec team_list)
    as (_ & _ & _ & _ & _ & _ & Hdistinct).
  split.
  - apply Hshort. simpl. lia.
  - apply Hdistinct.
    apply (bool_decide_eq_true_1 (NoDup team_list)). vm_compute. reflexivity.
Defined.

End GeneratePairings.

(** ** The outputs the notebooks record *)

(** The cells print what their functions return; the model gives the
    values the notebooks show. *)
Section RecordedOutputs.

(** "Eagles vs Sharks", ..., "Lions vs Bears": 6 matches. *)
Example generate_pairings_team_list :
  Itertools.generate_pairings Itertools.team_list
  = [["Eagles"; "Sharks"]; ["Eagles"; "Lions"]; ["Eagles"; "Bears"];
     ["Sharks"; "Lions"]; ["Sharks"; "Bears"]; ["Lions"; "Bears"]].
Proof. reflexivity. Qed.

(** One match for two teams. *)
Example generate_pairings_small :
  Itertools.generate_pairings ["Team A"; "Team B"] = [["Team A"; "Team B"]].
Proof. reflexivity. Qed.

(** The passing students are Alice, Charlie, Eve and Frank. *)
Example filter_passing_students_cell :
  Tuples.filter_passing_students 7 0%nat None [Tuples.student_tuples]
  = Ok 1%nat
      [Tuples.student_tuples;
       [("Alice", 101, 88.5%float); ("Charlie", 103, 92%float);
        ("Eve", 105, 75%float); ("Frank", 106, 65%float)]].
Proof. vm_compute. reflexivity. Qed.

(** INFO: 4, WARNING: 2, ERROR: 2, DEBUG: 1. *)
Example analyze_logs_cell :
  ∃ h' m,
    Dictionary.analyze_logs 10 9%nat Dictionary.log_store = Ok 11%nat h'
    ∧ h' !! 11%nat = Some (Dictionary.ODict m)
    ∧ m !! Dictionary.KStr "INFO" = Some 4
    ∧ m !! Dictionary.KStr "WARNING" = Some 2
    ∧ m !! Dictionary.KStr "ERROR" = Some 2
    ∧ m !! Dictionary.KStr "DEBUG" = Some 1
    ∧ size m = 4%nat.
Proof.
  eexists _, _. split; [vm_compute; reflexivity|].
  split; [reflexivity|]. by vm_compute.
Qed.

(** The features of the two versions: "login", "search" and "profile"
    are common, "upload" and "report" only in the first, "dashboard" and
    "export" only in the second. *)
Example compare_features_cell :
  ∃ h' (c u1 u2 : gset string),
    Sets.compare_features 0%nat 1%nat Sets.features_store
    = Ok (4, 5, 6)%nat h'
    ∧ h' !! 4%nat = Some (Sets.OSet c)
    ∧ h' !! 5%nat = Some (Sets.OSet u1)
    ∧ h' !! 6%nat = Some (Sets.OSet u2)
    ∧ c = {[ "login"; "search"; "profile" ]}
    ∧ u1 = {[ "upload"; "report" ]}
    ∧ u2 = {[ "dashboard"; "export" ]}.
Proof.
  eexists _, _, _, _. split; [vm_compute; reflexivity|].
  do 3 (split; [reflexivity|]).
  repeat split; by vm_compute.
Qed.

End RecordedOutputs.

(** * Further properties of the notebooks' functions *)

(** ** [compare_features]: the three sets together *)

Section CompareFeaturesMore.
Import Sets.

Lemma compare_features_returns_sets (h : heap obj) v1 v2 xs1 xs2 :
  h !! v1 = Some (OList xs1) →
  h !! v2 = Some (OList xs2) →
  compare_features_returns h v1 v2
    (list_to_set xs1 ∩ list_to_set xs2)
    (list_to_set xs1 ∖ list_to_set xs2)
    (list_to_set xs2 ∖ list_to_set xs1).
Proof.
  intros H1 H2. eexists _, _, _, _.
  split; [by apply (compare_features_run h v1 v2 xs1 xs2)|].
  split; [by rewrite (lookup_new _ _ 2) by lia|].
  split; [by rewrite (lookup_new _ _ 3) by lia|].
  by rewrite (lookup_new _ _ 4) by lia.
Qed.

Lemma compare_features_returns_inv (h : heap obj) v1 v2 xs1 xs2 c u1 u2 :
  h !! v1 = Some (OList xs1) →
  h !! v2 = Some (OList xs2) →
  compare_features_returns h v1 v2 c u1 u2 →
  c = list_to_set xs1 ∩ list_to_set xs2
  ∧ u1 = list_to_set xs1 ∖ list_to_set xs2
  ∧ u2 = list_to_set xs2 ∖ list_to_set xs1.
Proof.
  intros H1 H2 (common & unique1 & unique2 & h' & Hrun & Hc & Hu1 & Hu2).
  rewrite (compare_features_run h v1 v2 xs1 xs2 H1 H2) in Hrun.
  injection Hrun as <- <- <- <-.
  rewrite (lookup_new _ _ 2) in Hc by lia.
  rewrite (lookup_new _ _ 3) in Hu1 by lia.
  rewrite (lookup_new _ _ 4) in Hu2 by lia.
  by injection Hc as <-; injection Hu1 as <-; injection Hu2 as <-.
Qed.

(** X1: the three sets [compare_features] returns do not overlap, the
    common set with the first unique set is [set(v1)], the common set
    with the second is [set(v2)], and the three together hold every
    feature of either list. *)
Theorem compare_features_partition (h : heap obj) v1 v2 xs1 xs2 :
  h !! v1 = Some (OList xs1) →
  h !! v2 = Some (OList xs2) →
  ∃ c u1 u2 : gset string,
    compare_features_returns h v1 v2 c u1 u2
    ∧ c ## u1 ∧ c ## u2 ∧ u1 ## u2
    ∧ c ∪ u1 = list_to_set xs1
    ∧ c ∪ u2 = list_to_set xs2
    ∧ (∀ s, s ∈ c ∪ u1 ∪ u2 ↔ s ∈ xs1 ∨ s ∈ xs2)
    ∧ (size c + size u1 = size (list_to_set xs1 : gset string))%nat
    ∧ (size c + size u2 = size (list_to_set xs2 : gset string))%nat.
Proof.
  intros H1 H2. eexists _, _, _.
  split; [by apply (compare_features_returns_sets h v1 v2 xs1 xs2)|].
  set (s1 := list_to_set xs1 : gset string).
  set (s2 := list_to_set xs2 : gset string).
  assert (s1 ∩ s2 ## s1 ∖ s2) as Hd1 by set_solver.
  assert (s1 ∩ s2 ## s2 ∖ s1) as Hd2 by set_solver.
  assert (s1 ∩ s2 ∪ s1 ∖ s2 = s1) as Hu1.
  { apply set_eq. intros s. destruct (decide (s ∈ s2)); set_solver. }
  assert (s1 ∩ s2 ∪ s2 ∖ s1 = s2) as Hu2.
  { apply set_eq. intros s. destruct (decide (s ∈ s1)); set_solver. }
  split; [done|]. split; [done|]. split; [set_solver|].
  split; [done|]. split; [done|].
  split.
  { intros s. rewrite <- (elem_of_list_to_set (C := gset string) s xs1).
    rewrite <- (elem_of_list_to_set (C := gset string) s xs2).
    fold s1 s2. destruct (decide (s ∈ s1)), (decide (s ∈ s2)); set_solver. }
  split.
  - by rewrite <- size_union, Hu1.
  - by rewrite <- size_union, Hu2.
Qed.

Lemma compare_features_partition_witness :
  ∃ c u1 u2 : gset string,
    compare_features_returns features_store 0%nat 1%nat c u1 u2
    ∧ c ## u1 ∧ c ## u2 ∧ u1 ## u2
    ∧ c ∪ u1 = list_to_set features_v1
    ∧ c ∪ u2 = list_to_set features_v2
    ∧ (∀ s, s ∈ c ∪ u1 ∪ u2 ↔ s ∈ features_v1 ∨ s ∈ features_v2)
    ∧ (size c + size u1 = size (list_to_set features_v1 : gset string))%nat
    ∧ (size c + size u2 = size (list_to_set features_v2 : gset string))%nat.
Proof.
  apply (compare_features_partition features_store 0%nat 1%nat); reflexivity.
Defined.

(** X2: with the two lists swapped, [compare_features] returns the same
    common set and the two unique sets in the other order. *)
Theorem compare_features_swap (h : heap obj) v1 v2 xs1 xs2 c u1 u2 :
  h !! v1 = Some (OList xs1) →
  h !! v2 = Some (OList xs2) →
  compare_features_returns h v1 v2 c u1 u2 →
  compare_features_returns h v2 v1 c u2 u1.
Proof.
  intros H1 H2 Hret.
  destruct (compare_features_returns_inv h v1 v2 xs1 xs2 c u1 u2 H1 H2 Hret)
    as (-> & -> & ->).
  rewrite (comm_L (∩) (list_to_set xs1)).
  by apply compare_features_returns_sets.
Qed.

Lemma compare_features_swap_witness :
  compare_features_returns features_store 1%nat 0%nat
    (list_to_set features_v1 ∩ list_to_set features_v2)
    (list_to_set features_v2 ∖ list_to_set features_v1)
    (list_to_set features_v1 ∖ list_to_set features_v2).
Proof.
  apply (compare_features_swap features_store 0%nat 1%nat features_v1 features_v2);
    [reflexivity|reflexivity|].
  apply compare_features_returns_sets; reflexivity.
Defined.

(** X3: both unique sets are empty exactly when the two lists hold the
    same features (in any order, any number of times); in particular
    when the same list object is passed twice, and then the common set is
    the set of that list. *)
Theorem compare_features_same_features (h : heap obj) v1 v2 xs1 xs2 c u1 u2 :
  h !! v1 = Some (OList xs1) →
  h !! v2 = Some (OList xs2) →
  compare_features_returns h v1 v2 c u1 u2 →
  ((u1 = ∅ ∧ u2 = ∅) ↔ (∀ s, s ∈ xs1 ↔ s ∈ xs2))
  ∧ (v1 = v2 → c = list_to_set xs1 ∧ u1 = ∅ ∧ u2 = ∅).
Proof.
  intros H1 H2 Hret.
  destruct (compare_features_returns_inv h v1 v2 xs1 xs2 c u1 u2 H1 H2 Hret)
    as (-> & -> & ->).
  split.
  - split.
    + intros [Hu1 Hu2] s.
      rewrite <- (elem_of_list_to_set (C := gset string) s xs1).
      rewrite <- (elem_of_list_to_set (C := gset string) s xs2).
      split; intros Hs.
      * destruct (decide (s ∈ (list_to_set xs2 : gset string))); [done|].
        assert (s ∈ (list_to_set xs1 ∖ list_to_set xs2 : gset string))
          by set_solver.
        set_solver.
      * destruct (decide (s ∈ (list_to_set xs1 : gset string))); [done|].
        assert (s ∈ (list_to_set xs2 ∖ list_to_set xs1 : gset string))
          by set_solver.
        set_solver.
    + intros Hsame. split; apply set_eq; intros s;
        rewrite elem_of_difference, !elem_of_list_to_set; set_solver.
  - intros <-. rewrite H1 in H2. injection H2 as <-. set_solver.
Qed.

Lemma compare_features_same_features_witness :
  ((list_to_set features_v1 ∖ list_to_set features_v1 = (∅ : gset string)
    ∧ list_to_set features_v1 ∖ list_to_set features_v1 = (∅ : gset string))
   ↔ (∀ s, s ∈ features_v1 ↔ s ∈ features_v1))
  ∧ (0%nat = 0%nat →
     list_to_set features_v1 ∩ list_to_set features_v1
     = (list_to_set features_v1 : gset string)
     ∧ list_to_set features_v1 ∖ list_to_set features_v1 = (∅ : gset string)
     ∧ list_to_set features_v1 ∖ list_to_set features_v1 = (∅ : gset string)).
Proof.
  apply (compare_features_same_features features_store 0%nat 0%nat
           features_v1 features_v1); [reflexivity|reflexivity|].
  apply compare_features_returns_sets; reflexivity.
Defined.

End CompareFeaturesMore.

(** ** [filter_passing_students]: what the returned list holds *)

Section FilterPassingStudentsMore.
Import Tuples.

Lemma filter_passing_students_returns_filter (h : heap obj) students xs
    passing_grade fuel ys :
  h !! students = Some xs →
  (length xs < fuel)%nat →
  filter_passing_students_returns h fuel students passing_grade ys
  ↔ ys = filter (λ s, passes passing_grade s = true) xs.
Proof.
  intros Hs Hfuel. unfold filter_passing_students_returns.
  rewrite (filter_passing_students_run h students xs passing_grade fuel Hs Hfuel).
  split.
  - intros (r & h' & [= <- <-] & Hr). rewrite lookup_first_new in Hr.
    by injection Hr as <-.
  - intros ->. eexists _, _. split; [done|]. apply lookup_first_new.
Qed.

Lemma filter_all {A} (P : A → Prop) `{∀ x, Decision (P x)} (l : list A) :
  Forall P l → filter P l = l.
Proof.
  induction 1 as [|x l Hx _ IH]; [done|].
  rewrite filter_cons, decide_True by done. by rewrite IH.
Qed.

(** X4: the list [filter_passing_students] returns keeps students of the
    input in their input order and invents none; a student of the input
    is in it exactly when the score is at least the passing grade; and a
    list of students who all pass is returned whole, an empty list
    empty. *)
Theorem filter_passing_students_selects (h : heap obj) students xs
    passing_grade fuel :
  h !! students = Some xs →
  (length xs < fuel)%nat →
  ∃ ys,
    filter_passing_students_returns h fuel students passing_grade ys
    ∧ sublist ys xs
    ∧ (∀ s, s ∈ ys ↔ s ∈ xs ∧ passes passing_grade s = true)
    ∧ (length ys ≤ length xs)%nat
    ∧ (Forall (λ s, passes passing_grade s = true) xs → ys = xs)
    ∧ (xs = [] → ys = []).
Proof.
  intros Hs Hfuel. eexists.
  split; [by apply (filter_passing_students_returns_filter h students xs)|].
  split; [apply sublist_filter|].
  split; [intros s; rewrite list_elem_of_filter; tauto|].
  split; [apply length_filter|].
  split; [apply filter_all|by intros ->].
Qed.

Lemma filter_passing_students_selects_witness :
  ∃ ys,
    filter_passing_students_returns [student_tuples] 7 0%nat None ys
    ∧ sublist ys student_tuples
    ∧ (∀ s, s ∈ ys ↔ s ∈ student_tuples ∧ passes None s = true)
    ∧ (length ys ≤ length student_tuples)%nat
    ∧ (Forall (λ s, passes None s = true) student_tuples → ys = student_tuples)
    ∧ (student_tuples = [] → ys = []).
Proof.
  apply (filter_passing_students_selects [student_tuples] 0%nat student_tuples None 7);
    [reflexivity | simpl; lia].
Defined.

(** X5: filtering the returned list once more with the same passing
    grade returns a second, different list object with the same students:
    the first call has left only passing students. *)
Theorem filter_passing_students_twice (h : heap obj) students xs
    passing_grade fuel :
  h !! students = Some xs →
  (length xs < fuel)%nat →
  ∃ first second h' ys,
    (first ← filter_passing_students fuel students passing_grade;
     second ← filter_passing_students fuel first passing_grade;
     mret (first, second)) h = Ok (first, second) h'
    ∧ first ≠ second
    ∧ h' !! first = Some ys
    ∧ h' !! second = Some ys
    ∧ h' !! students = Some xs.
Proof.
  intros Hs Hfuel.
  set (ys := filter (λ s, passes passing_grade s = true) xs).
  exists (length h), (S (length h)), (h ++ [ys; ys]), ys.
  split.
  - rewrite (bind_Ok _ _ _ _ _
      (filter_passing_students_run h students xs passing_grade fuel Hs Hfuel)).
    fold ys.
    rewrite (bind_Ok _ _ _ (S (length h)) (h ++ [ys; ys])); [done|].
    rewrite (filter_passing_students_run (h ++ [ys]) (length h) ys passing_grade fuel).
    + rewrite length_app, Nat.add_1_r, <- app_assoc. cbn [app].
      do 4 f_equal. unfold ys. apply list_filter_filter_l. tauto.
    + apply lookup_first_new.
    + pose proof (length_filter (λ s, passes passing_grade s = true) xs).
      fold ys in H. lia.
  - split; [lia|]. split; [apply lookup_first_new|].
    split; [by apply (lookup_new_Some _ _ 1); [lia|]|by apply lookup_old].
Qed.

Lemma filter_passing_students_twice_witness :
  ∃ first second h' ys,
    (first ← filter_passing_students 7 0%nat None;
     second ← filter_passing_students 7 first None;
     mret (first, second)) [student_tuples] = Ok (first, second) h'
    ∧ first ≠ second
    ∧ h' !! first = Some ys
    ∧ h' !! second = Some ys
    ∧ h' !! 0%nat = Some student_tuples.
Proof.
  apply (filter_passing_students_twice [student_tuples] 0%nat student_tuples None 7);
    [reflexivity | simpl; lia].
Defined.

End FilterPassingStudentsMore.

(** ** [analyze_logs]: batches, order and keys *)

Section AnalyzeLogsMore.
Import Dictionary.

Lemma analyze_logs_returns_tally (h : heap obj) logs es ds fuel m :
  h !! logs = Some (OList es) →
  Forall2 (λ e d, h !! e = Some (OEntry d)) es ds →
  (length es < fuel)%nat →
  analyze_logs_returns h fuel logs m ↔ m = tally ds.
Proof.
  intros Hlogs Hes Hfuel. unfold analyze_logs_returns.
  rewrite (analyze_logs_run h logs es ds fuel Hlogs Hes Hfuel). split.
  - intros (r & h' & [= <- <-] & Hr).
    rewrite (lookup_new _ _ 1) in Hr by lia. by injection Hr as <-.
  - intros ->. eexists _, _. split; [done|]. by rewrite (lookup_new _ _ 1) by lia.
Qed.

Lemma count_of_tally ds k : count_of (tally ds) k = occurrences k ds.
Proof. apply tally_lookup_default. Qed.

Lemma occurrences_app k ds1 ds2 :
  occurrences k (ds1 ++ ds2) = occurrences k ds1 + occurrences k ds2.
Proof. unfold occurrences. rewrite filter_app, length_app. lia. Qed.

Lemma occurrences_Permutation k ds ds' :
  ds ≡ₚ ds' → occurrences k ds = occurrences k ds'.
Proof. unfold occurrences. by intros ->. Qed.

Lemma tally_Permutation ds ds' : ds ≡ₚ ds' → tally ds = tally ds'.
Proof.
  intros Hp. apply map_eq. intros k.
  by rewrite !tally_lookup, (occurrences_Permutation k ds ds' Hp).
Qed.

Lemma Forall2_Permutation_l {A B} (P : A → B → Prop) (l l' : list A) (k : list B) :
  l ≡ₚ l' → Forall2 P l k → ∃ k', k ≡ₚ k' ∧ Forall2 P l' k'.
Proof.
  intros Hp. revert k. induction Hp as [|x l l' _ IH|x y l|l l' l'' _ IH1 _ IH2];
    intros k Hk.
  - exists k. by split.
  - destruct k as [|b k]; inversion Hk; subst.
    destruct (IH k) as (k' & Hkk' & Hk'); [done|].
    exists (b :: k'). split; [by constructor|by constructor].
  - destruct k as [|b [|c k]]; inversion Hk as [|? ? ? ? ? Hk']; subst;
      inversion Hk'; subst.
    exists (c :: b :: k). split; [apply perm_swap|by repeat constructor].
  - destruct (IH1 k Hk) as (k' & Hkk' & Hk').
    destruct (IH2 k' Hk') as (k'' & Hkk'' & Hk'').
    exists k''. split; [by etrans|done].
Qed.

(** X6: log entries can be counted in batches: for every level, the
    count [analyze_logs] gives for a list that is two lists one after the
    other is the sum of the counts it gives for the two lists (a level
    that is not in a result counting as 0). *)
Theorem analyze_logs_batches (h : heap obj) logs logs1 logs2 es1 es2 ds1 ds2 fuel :
  h !! logs = Some (OList (es1 ++ es2)) →
  h !! logs1 = Some (OList es1) →
  h !! logs2 = Some (OList es2) →
  Forall2 (λ e d, h !! e = Some (OEntry d)) es1 ds1 →
  Forall2 (λ e d, h !! e = Some (OEntry d)) es2 ds2 →
  (length (es1 ++ es2) < fuel)%nat →
  ∃ m m1 m2,
    analyze_logs_returns h fuel logs m
    ∧ analyze_logs_returns h fuel logs1 m1
    ∧ analyze_logs_returns h fuel logs2 m2
    ∧ ∀ k, count_of m k = count_of m1 k + count_of m2 k.
Proof.
  intros Hlogs Hlogs1 Hlogs2 Hes1 Hes2 Hfuel. rewrite length_app in Hfuel.
  exists (tally (ds1 ++ ds2)), (tally ds1), (tally ds2).
  split.
  { apply (analyze_logs_returns_tally h logs (es1 ++ es2) (ds1 ++ ds2));
      [done|by apply Forall2_app|rewrite length_app; lia|done]. }
  split.
  { apply (analyze_logs_returns_tally h logs1 es1 ds1); [done|done|lia|done]. }
  split.
  { apply (analyze_logs_returns_tally h logs2 es2 ds2); [done|done|lia|done]. }
  intros k. rewrite !count_of_tally. apply occurrences_app.
Qed.

(** The store of the cell with two more lists: the first four entries
    and the last five. *)
Lemma analyze_logs_batches_witness :
  ∃ m m1 m2,
    analyze_logs_returns
      (log_store ++ [OList (seq 0 4); OList (seq 4 5)]) 10 9%nat m
    ∧ analyze_logs_returns
        (log_store ++ [OList (seq 0 4); OList (seq 4 5)]) 10 10%nat m1
    ∧ analyze_logs_returns
        (log_store ++ [OList (seq 0 4); OList (seq 4 5)]) 10 11%nat m2
    ∧ ∀ k, count_of m k = count_of m1 k + count_of m2 k.
Proof.
  apply (analyze_logs_batches
           (log_store ++ [OList (seq 0 4); OList (seq 4 5)])
           9%nat 10%nat 11%nat (seq 0 4) (seq 4 5)
           (take 4 log_data) (drop 4 log_data) 10).
  - reflexivity.
  - reflexivity.
  - reflexivity.
  - repeat constructor.
  - repeat constructor.
  - simpl. lia.
Defined.

(** X7: the order of the log entries does not matter: two lists with the
    same entries in another order give the same dictionary. *)
Theorem analyze_logs_order (h : heap obj) logs logs' es es' ds fuel m :
  h !! logs = Some (OList es) →
  h !! logs' = Some (OList es') →
  es ≡ₚ es' →
  Forall2 (λ e d, h !! e = Some (OEntry d)) es ds →
  (length es < fuel)%nat →
  analyze_logs_returns h fuel logs m →
  analyze_logs_returns h fuel logs' m.
Proof.
  intros Hlogs Hlogs' Hp Hes Hfuel Hm.
  apply (analyze_logs_returns_tally h logs es ds fuel m Hlogs Hes Hfuel) in Hm
    as ->.
  destruct (Forall2_Permutation_l _ es es' ds Hp Hes) as (ds' & Hds & Hes').
  apply (analyze_logs_returns_tally h logs' es' ds' fuel); [done|done| |].
  - by rewrite <- Hp.
  - by apply tally_Permutation.
Qed.

Lemma analyze_logs_order_witness :
  analyze_logs_returns (log_store ++ [OList (rev (seq 0 9))]) 10 10%nat
    (tally log_data).
Proof.
  apply (analyze_logs_order (log_store ++ [OList (rev (seq 0 9))])
           9%nat 10%nat (seq 0 9) (rev (seq 0 9)) log_data 10).
  - reflexivity.
  - reflexivity.
  - apply Permutation_rev.
  - repeat constructor.
  - simpl. lia.
  - apply (analyze_logs_returns_tally _ 9%nat (seq 0 9) log_data);
      [reflexivity|repeat constructor|simpl; lia|reflexivity].
Defined.

(** X8: a level string is a key of the dictionary [analyze_logs]
    returns exactly when the "level" key of some entry holds it, or it
    is "UNKNOWN" and some entry has no "level" key (and likewise a key
    of another type exactly when the level of some entry is equal to
    it); so there are at most as many keys as entries, and an empty
    list of entries gives the empty dictionary. *)
Theorem analyze_logs_keys (h : heap obj) logs es ds fuel :
  h !! logs = Some (OList es) →
  Forall2 (λ e d, h !! e = Some (OEntry d)) es ds →
  (length es < fuel)%nat →
  ∃ m,
    analyze_logs_returns h fuel logs m
    ∧ (∀ s : string,
         KStr s ∈ dom m
         ↔ ∃ d, d ∈ ds
                ∧ (d !! "level" = Some (VStr s)
                   ∨ (d !! "level" = None ∧ s = "UNKNOWN")))
    ∧ (∀ k, k ∈ dom m ↔ ∃ d, d ∈ ds ∧ counted_under k d = true)
    ∧ (size m ≤ length es)%nat
    ∧ (es = [] → m = ∅).
Proof.
  intros Hlogs Hes Hfuel. exists (tally ds).
  split; [by apply (analyze_logs_returns_tally h logs es ds fuel)|].
  cut ((∀ k, k ∈ dom (tally ds) ↔ ∃ d, d ∈ ds ∧ counted_under k d = true)
       ∧ (size (tally ds) ≤ length es)%nat ∧ (es = [] → tally ds = ∅)).
  { intros (Hk & Hrest). split; [|by split].
    intros s. rewrite Hk. by setoid_rewrite counted_under_has_level. }
  assert (Hkeys : ∀ k, k ∈ dom (tally ds)
                       ↔ ∃ d, d ∈ ds ∧ counted_under k d = true).
  { intros k. rewrite elem_of_dom, tally_lookup. unfold occurrences.
    destruct (filter (λ d, counted_under k d = true) ds) as [|d l] eqn:Hf.
    - rewrite decide_True by done. split; [by intros []|].
      intros (d & Hd & Hk).
      assert (d ∈ filter (λ d, counted_under k d = true) ds)
        by (by apply list_elem_of_filter).
      rewrite Hf in H. by apply elem_of_nil in H.
    - rewrite decide_False by (simpl; lia). split; [|by eexists].
      intros _. exists d.
      assert (d ∈ filter (λ d, counted_under k d = true) ds) as Hd
        by (rewrite Hf; left).
      apply list_elem_of_filter in Hd. tauto. }
  split; [exact Hkeys|]. split.
  - rewrite (Forall2_length _ _ _ Hes).
    clear Hes Hkeys. induction ds as [|d ds IH] using rev_ind; [done|].
    rewrite tally_snoc, length_app. unfold count_one.
    rewrite map_size_insert. cbn [length].
    destruct (tally ds !! _); simpl; lia.
  - intros ->. by inversion Hes.
Qed.

Lemma analyze_logs_keys_witness :
  ∃ m,
    analyze_logs_returns log_store 10 9%nat m
    ∧ (∀ s : string,
         KStr s ∈ dom m
         ↔ ∃ d, d ∈ log_data
                ∧ (d !! "level" = Some (VStr s)
                   ∨ (d !! "level" = None ∧ s = "UNKNOWN")))
    ∧ (∀ k, k ∈ dom m ↔ ∃ d, d ∈ log_data ∧ counted_under k d = true)
    ∧ (size m ≤ length (seq 0 (length log_data)))%nat
    ∧ (seq 0 (length log_data) = [] → m = ∅).
Proof.
  apply (analyze_logs_keys log_store 9%nat (seq 0 (length log_data)) log_data 10);
    [reflexivity|apply log_store_entries|simpl; lia].
Defined.

End AnalyzeLogsMore.

(** ** [generate_pairings]: matches, teams and repeated names *)

Section GeneratePairingsMore.
Import Itertools.

Lemma generate_pairings_combinations (teams : list string) :
  generate_pairings teams = combinations teams 2.
Proof.
  unfold generate_pairings.
  destruct (length teams <? 2)%nat eqn:Hlen; [|done].
  apply Nat.ltb_lt in Hlen. by rewrite combinations_2_short.
Qed.

(** The combinations of length [r] are the sublists of length [r]. *)
Lemma elem_of_combinations {A} (pool : list A) (r : nat) (p : list A) :
  p ∈ combinations pool r ↔ sublist p pool ∧ length p = r.
Proof.
  split.
  - revert r p. induction pool as [|x pool IH]; intros [|r] p.
    + cbn. rewrite list_elem_of_singleton. intros ->. split; [constructor|done].
    + cbn. by intros ?%elem_of_nil.
    + rewrite combinations_0, list_elem_of_singleton. intros ->.
      split; [apply sublist_nil_l|done].
    + cbn [combinations]. rewrite elem_of_app.
      intros [Hp|Hp].
      * apply list_elem_of_In, in_map_iff in Hp as (p' & <- & Hp').
        apply list_elem_of_In, IH in Hp' as [Hsub <-].
        split; [by apply sublist_skip|done].
      * apply IH in Hp as [Hsub Hlen]. split; [by apply sublist_cons|done].
  - intros [Hsub <-]. induction Hsub as [|x p pool Hsub IH|x p pool Hsub IH].
    + cbn. by apply list_elem_of_singleton.
    + cbn [length combinations]. apply elem_of_app. left.
      apply list_elem_of_In, in_map, list_elem_of_In, IH.
    + destruct p as [|y p].
      * rewrite combinations_0. by apply list_elem_of_singleton.
      * cbn [length combinations] in *. apply elem_of_app. by right.
Qed.

(** X9: the pairings [generate_pairings] returns are the two-element
    subsequences of the team list: a pairing has two teams, the first of
    which stands before the second in the list, and every such pair of
    teams is a pairing. *)
Theorem generate_pairings_subsequences (teams p : list string) :
  p ∈ generate_pairings teams ↔ length p = 2%nat ∧ sublist p teams.
Proof.
  rewrite generate_pairings_combinations, elem_of_combinations. tauto.
Qed.

Lemma filter_none {A} (P : A → Prop) `{∀ x, Decision (P x)} (l : list A) :
  Forall (λ x, ¬ P x) l → filter P l = [].
Proof.
  induction 1 as [|x l Hx _ IH]; [done|].
  by rewrite filter_cons, decide_False.
Qed.

Lemma sublist_singleton {A} (x : A) (l : list A) : x ∈ l → sublist [x] l.
Proof.
  induction 1 as [x l|x y l _ IH].
  - apply sublist_skip, sublist_nil_l.
  - by apply sublist_cons.
Qed.

Lemma count_occurrence_NoDup (t : string) (l : list string) :
  NoDup l → t ∈ l → length (filter (λ y, y = t) l) = 1%nat.
Proof.
  induction 1 as [|x l Hx Hl IH]; [by intros ?%elem_of_nil|].
  rewrite filter_cons. intros [->|Ht]%elem_of_cons.
  - rewrite decide_True by done. cbn. f_equal.
    rewrite filter_none; [done|]. apply Forall_forall. by intros y Hy ->.
  - rewrite decide_False by (by intros ->). by apply IH.
Qed.

Lemma combinations_2_elements (pool : list string) p t :
  p ∈ combinations pool 2 → t ∈ p → t ∈ pool.
Proof.
  intros [Hsub _]%elem_of_combinations Ht. by eapply elem_of_sublist.
Qed.

(** X10: with distinct team names, every team takes part in exactly
    [n - 1] of the pairings: it meets each other team once. *)
Theorem generate_pairings_round_robin (teams : list string) (t : string) :
  NoDup teams →
  t ∈ teams →
  length (filter (λ p, t ∈ p) (generate_pairings teams)) = (length teams - 1)%nat.
Proof.
  rewrite generate_pairings_combinations.
  induction 1 as [|x teams Hx Hnd IH]; [by intros ?%elem_of_nil|].
  intros Ht. rewrite combinations_2_cons, filter_app, length_app.
  cbn [length]. replace (S (length teams) - 1)%nat with (length teams) by lia.
  destruct (decide (t = x)) as [->|Hne].
  - assert (filter (λ p, x ∈ p) (combinations teams 2) = []) as ->.
    { apply filter_none, Forall_forall. intros p Hp Hxp.
      by apply Hx, (combinations_2_elements teams p). }
    assert (filter (λ p, x ∈ p) (map (λ y, [x; y]) teams)
            = map (λ y, [x; y]) teams) as ->.
    { apply filter_all, Forall_forall. intros p Hp.
      apply list_elem_of_In, in_map_iff in Hp as (y & <- & _). left. }
    rewrite length_map. cbn. lia.
  - apply elem_of_cons in Ht as [?|Ht]; [done|].
    rewrite (IH Ht).
    assert (length (filter (λ p, t ∈ p) (map (λ y, [x; y]) teams)) = 1%nat) as ->.
    { rewrite <- (count_occurrence_NoDup t teams Hnd Ht).
      clear -Hne. induction teams as [|y teams IH]; [done|].
      cbn [map]. rewrite !filter_cons.
      destruct (decide (y = t)) as [->|Hyt].
      - rewrite decide_True by (right; left). cbn [length]. by rewrite IH.
      - rewrite decide_False; [done|].
        intros [->|[->|[]%elem_of_nil]%elem_of_cons]%elem_of_cons; congruence. }
    apply list_elem_of_lookup in Ht as [i Hi]. apply lookup_lt_Some in Hi. lia.
Qed.

Lemma generate_pairings_round_robin_witness :
  length (filter (λ p, "Lions" ∈ p) (generate_pairings team_list)) = 3%nat.
Proof.
  apply (generate_pairings_round_robin team_list "Lions").
  - apply (bool_decide_eq_true_1 (NoDup team_list)). vm_compute. reflexivity.
  - apply (bool_decide_eq_true_1 ("Lions" ∈ team_list)). vm_compute. reflexivity.
Defined.

(** X11: [generate_pairings] pairs positions, not names: a team is
    paired with itself exactly when its name is in the list more than
    once. *)
Theorem generate_pairings_self_pairing (teams : list string) :
  NoDup teams ↔ ∀ a, [a; a] ∉ generate_pairings teams.
Proof.
  split.
  - intros Hnd a [_ Hsub]%generate_pairings_subsequences.
    apply (sublist_NoDup _ _ Hnd) in Hsub.
    apply NoDup_cons in Hsub as [Ha _]. apply Ha. left.
  - intros Hself. apply NoDup_alt. intros i j x Hi Hj.
    assert (∀ i j, (i < j)%nat → teams !! i = Some x → teams !! j = Some x → False)
      as Hlt.
    { clear i j Hi Hj. intros i j Hij Hi Hj. apply (Hself x).
      apply generate_pairings_subsequences. split; [done|].
      rewrite <- (take_drop_middle teams i x Hi).
      apply sublist_inserts_l, sublist_skip, sublist_singleton.
      apply list_elem_of_lookup. exists (j - S i)%nat.
      rewrite lookup_drop. rewrite <- Hj. f_equal. lia. }
    destruct (Nat.lt_trichotomy i j) as [Hij|[->|Hij]]; [|done|].
    + destruct (Hlt i j Hij Hi Hj).
    + destruct (Hlt j i Hij Hj Hi).
Qed.

Lemma generate_pairings_self_pairing_witness :
  ["Lions"; "Lions"] ∉ generate_pairings team_list.
Proof.
  apply (proj1 (generate_pairings_self_pairing team_list)).
  apply (bool_decide_eq_true_1 (NoDup team_list)). vm_compute. reflexivity.
Defined.

End GeneratePairingsMore.

(** ** Variables shared through the store *)

Section SharedVariables.
Import Lambda Scoping Nonlocal.

Lemma bind_Raise {Obj A B} (m : M Obj A) (k : A → M Obj B) h e :
  m h = Raise e → (m ≫= k) h = Raise e.
Proof. unfold mbind, M_bind. by intros ->. Qed.

Lemma cell_contents_Ok (h : heap obj) c n :
  h !! c = Some (OCell n) → cell_contents c h = Ok n h.
Proof.
  intros Hc. unfold cell_contents. by rewrite (bind_Ok _ _ _ _ _ (read_Ok _ _ _ Hc)).
Qed.

(** Printing a line that ends with the text of an integer. *)
Lemma print_int_Ok (h : heap obj) line n :
  Z.abs n < 10 ^ 4300 →
  print (s ← str n; mret (line +:+ s)) h = Ok tt h.
Proof. intros Hn. by rewrite (str_within n Hn). Qed.

Lemma print_int_Raise (h : heap obj) line n :
  10 ^ 4300 ≤ Z.abs n →
  print (s ← str n; mret (line +:+ s)) h = Raise ValueError.
Proof. intros Hn. by rewrite (str_beyond n Hn). Qed.

Lemma increment_counter_Ok (h : heap obj) c n :
  h !! c = Some (OCell n) →
  Z.abs (n + 1) < 10 ^ 4300 →
  increment_counter c h = Ok tt (<[c := OCell (n + 1)]> h).
Proof.
  intros Hc Hn. unfold increment_counter.
  rewrite (bind_Ok _ _ _ _ _ (cell_contents_Ok _ _ _ Hc)).
  rewrite (bind_Ok _ _ _ _ _ (write_Ok _ _ _ _ Hc)).
  erewrite bind_Ok
    by (apply cell_contents_Ok, list_lookup_insert_eq;
        by eapply lookup_lt_Some).
  by apply print_int_Ok.
Qed.

Lemma increment_counter_Raise (h : heap obj) c n :
  h !! c = Some (OCell n) →
  10 ^ 4300 ≤ Z.abs (n + 1) →
  increment_counter c h = Raise ValueError.
Proof.
  intros Hc Hn. unfold increment_counter.
  rewrite (bind_Ok _ _ _ _ _ (cell_contents_Ok _ _ _ Hc)).
  rewrite (bind_Ok _ _ _ _ _ (write_Ok _ _ _ _ Hc)).
  erewrite bind_Ok
    by (apply cell_contents_Ok, list_lookup_insert_eq;
        by eapply lookup_lt_Some).
  by apply print_int_Raise.
Qed.

(** X12: [increment_counter] counts its calls in the global variable:
    as long as the count has at most 4300 decimal digits, [k] calls add
    [k] to [call_count] and change no other object; the call that
    brings the count to more digits raises [ValueError] (in the line it
    prints). *)
Theorem increment_counter_counts (h : heap obj) call_count n (k : nat) :
  h !! call_count = Some (OCell n) →
  ((∀ i, 1 ≤ i ≤ Z.of_nat k → Z.abs (n + i) < 10 ^ 4300) →
   call_times k (increment_counter call_count) h
   = Ok tt (<[call_count := OCell (n + Z.of_nat k)]> h))
  ∧ (10 ^ 4300 ≤ Z.abs (n + 1) →
     increment_counter call_count h = Raise ValueError).
Proof.
  intros Hc. split; [|by apply increment_counter_Raise].
  revert h n Hc. induction k as [|k IH]; intros h n Hc Hlim.
  - cbn [call_times]. rewrite Z.add_0_r. by rewrite list_insert_id.
  - cbn [call_times].
    rewrite (bind_Ok _ _ _ _ _ (increment_counter_Ok _ _ _ Hc
               (Hlim 1 ltac:(lia)))).
    rewrite (IH _ (n + 1)).
    + rewrite list_insert_insert_eq. do 3 f_equal. lia.
    + apply list_lookup_insert_eq. by eapply lookup_lt_Some.
    + intros i Hi. replace (n + 1 + i) with (n + (1 + i)) by lia.
      apply Hlim. lia.
Qed.

Lemma increment_counter_counts_witness :
  call_times 2 (increment_counter 0%nat) [OCell 0]
  = Ok tt (<[0%nat := OCell (0 + Z.of_nat 2)]> [OCell 0]).
Proof.
  refine (proj1 (increment_counter_counts [OCell 0] 0%nat 0 2 _) _).
  - reflexivity.
  - intros i Hi. assert (i = 1 ∨ i = 2) as [-> | ->] by lia; reflexivity.
Defined.

Lemma update_value_Ok (h : heap obj) u n v :
  h !! update_value_tracked u = Some (OCell n) →
  Z.abs n < 10 ^ 4300 → Z.abs v < 10 ^ 4300 →
  update_value u v h = Ok tt (<[update_value_tracked u := OCell v]> h).
Proof.
  intros Hc Hn Hv. unfold update_value.
  rewrite (bind_Ok _ _ _ _ _ (cell_contents_Ok _ _ _ Hc)).
  rewrite (bind_Ok _ _ _ _ _ (print_int_Ok _ _ _ Hn)).
  rewrite (bind_Ok _ _ _ _ _ (write_Ok _ _ _ _ Hc)).
  erewrite bind_Ok
    by (apply cell_contents_Ok, list_lookup_insert_eq;
        by eapply lookup_lt_Some).
  by apply print_int_Ok.
Qed.

Lemma update_value_Raise (h : heap obj) u n v :
  h !! update_value_tracked u = Some (OCell n) →
  Z.abs n < 10 ^ 4300 → 10 ^ 4300 ≤ Z.abs v →
  update_value u v h = Raise ValueError.
Proof.
  intros Hc Hn Hv. unfold update_value.
  rewrite (bind_Ok _ _ _ _ _ (cell_contents_Ok _ _ _ Hc)).
  rewrite (bind_Ok _ _ _ _ _ (print_int_Ok _ _ _ Hn)).
  rewrite (bind_Ok _ _ _ _ _ (write_Ok _ _ _ _ Hc)).
  erewrite bind_Ok
    by (apply cell_contents_Ok, list_lookup_insert_eq;
        by eapply lookup_lt_Some).
  by apply print_int_Raise.
Qed.

Lemma last_cons_default {A} (xs : list A) x d :
  List.last (x :: xs) d = List.last xs x.
Proof.
  revert x d. induction xs as [|y xs IH]; intros x d; [done|].
  change (List.last (x :: y :: xs) d) with (List.last (y :: xs) d).
  by rewrite !IH.
Qed.

Lemma update_values_Ok (h : heap obj) u n vs :
  h !! update_value_tracked u = Some (OCell n) →
  Z.abs n < 10 ^ 4300 →
  Forall (λ v, Z.abs v < 10 ^ 4300) vs →
  update_values u vs h
  = Ok tt (<[update_value_tracked u := OCell (List.last vs n)]> h).
Proof.
  intros Hc Hn Hvs. revert h n Hc Hn.
  induction Hvs as [|v vs Hv _ IH]; intros h n Hc Hn.
  - cbn [update_values List.last]. by rewrite list_insert_id.
  - cbn [update_values].
    rewrite (bind_Ok _ _ _ _ _ (update_value_Ok _ _ _ v Hc Hn Hv)).
    rewrite (IH _ v).
    + rewrite list_insert_insert_eq. do 3 f_equal.
      symmetry. apply last_cons_default.
    + apply list_lookup_insert_eq. by eapply lookup_lt_Some.
    + done.
Qed.

Lemma update_values_Raise (h : heap obj) u n vs v rest :
  h !! update_value_tracked u = Some (OCell n) →
  Z.abs n < 10 ^ 4300 →
  Forall (λ v, Z.abs v < 10 ^ 4300) vs →
  10 ^ 4300 ≤ Z.abs v →
  update_values u (vs ++ v :: rest) h = Raise ValueError.
Proof.
  intros Hc Hn Hvs Hv. revert h n Hc Hn.
  induction Hvs as [|w vs Hw _ IH]; intros h n Hc Hn.
  - cbn [app update_values].
    by rewrite (bind_Raise _ _ _ _ (update_value_Raise _ _ _ v Hc Hn Hv)).
  - cbn [app update_values].
    rewrite (bind_Ok _ _ _ _ _ (update_value_Ok _ _ _ w Hc Hn Hw)).
    apply (IH _ w); [|done].
    apply list_lookup_insert_eq. by eapply lookup_lt_Some.
Qed.

Lemma initial_value_within : Z.abs 100 < 10 ^ 4300.
Proof. reflexivity. Qed.

(** X13: when the values given to the updater of a tracker have at most
    4300 decimal digits, the getter returns the value of the latest
    call of the updater, and 100 when the updater has not been called;
    the first call of the updater with a value of more digits raises
    [ValueError] (in the line it prints). *)
Theorem tracker_reads_latest_update (h : heap obj) (new_vals : list Z) :
  (Forall (λ v, Z.abs v < 10 ^ 4300) new_vals →
   ∃ h',
     ('(updater, getter) ← create_tracker;
      update_values updater new_vals;;
      get_value getter) h
     = Ok (List.last new_vals 100) h')
  ∧ (∀ vs v rest,
       new_vals = vs ++ v :: rest →
       Forall (λ v, Z.abs v < 10 ^ 4300) vs →
       10 ^ 4300 ≤ Z.abs v →
       ('(updater, getter) ← create_tracker;
        update_values updater new_vals;;
        get_value getter) h
       = Raise ValueError).
Proof.
  split.
  - intros Hvs. eexists. unfold create_tracker.
    rewrite (bind_Ok _ _ h
               ({| update_value_tracked := length h |},
                {| get_value_tracked := length h |}) (h ++ [OCell 100]))
      by done.
    erewrite bind_Ok
      by (apply (update_values_Ok _ _ 100);
          [apply lookup_first_new|apply initial_value_within|exact Hvs]).
    cbn [update_value_tracked]. rewrite insert_first_new.
    apply cell_contents_Ok, lookup_first_new.
  - intros vs v rest -> Hvs Hv. unfold create_tracker.
    rewrite (bind_Ok _ _ h
               ({| update_value_tracked := length h |},
                {| get_value_tracked := length h |}) (h ++ [OCell 100]))
      by done.
    apply bind_Raise. apply (update_values_Raise _ _ 100); [|apply initial_value_within|done..].
    apply lookup_first_new.
Qed.

Lemma tracker_reads_latest_update_witness :
  ∃ h',
    ('(updater, getter) ← create_tracker;
     update_values updater [150];;
     get_value getter) []
    = Ok 150 h'.
Proof.
  refine (proj1 (tracker_reads_latest_update [] [150]) _).
  repeat constructor.
Defined.

(** X14: two trackers do not share their variable: a call of the updater
    of one (with a value of at most 4300 decimal digits) leaves what
    the getter of the other returns as it was. *)
Theorem trackers_independent (h : heap obj) (v1 v2 : Z) :
  Z.abs v1 < 10 ^ 4300 → Z.abs v2 < 10 ^ 4300 →
  ∃ h',
    ('(updater1, getter1) ← create_tracker;
     '(updater2, getter2) ← create_tracker;
     update_value updater1 v1;;
     a ← get_value getter2;
     update_value updater2 v2;;
     b ← get_value getter1;
     c ← get_value getter2;
     mret (a, b, c)) h
    = Ok (100, v1, v2) h'.
Proof.
  intros Hv1 Hv2. eexists. unfold create_tracker.
  rewrite (bind_Ok _ _ h
             ({| update_value_tracked := length h |},
              {| get_value_tracked := length h |}) (h ++ [OCell 100])) by done.
  rewrite (bind_Ok _ _ (h ++ [OCell 100])
             ({| update_value_tracked := S (length h) |},
              {| get_value_tracked := S (length h) |})
             (h ++ [OCell 100; OCell 100])).
  2:{ cbn [mbind]. unfold mbind, M_bind, mret, M_ret, alloc.
      by rewrite length_app, Nat.add_1_r, <- app_assoc. }
  erewrite bind_Ok
    by (apply (update_value_Ok _ _ 100);
        [apply lookup_first_new|apply initial_value_within|exact Hv1]).
  cbn [update_value_tracked]. rewrite insert_first_new.
  erewrite bind_Ok by
    (apply (cell_contents_Ok _ _ 100), (lookup_new_Some _ _ 1);
     [symmetry; apply Nat.add_1_r|done]).
  erewrite bind_Ok by
    (apply (update_value_Ok _ _ 100);
     [apply (lookup_new_Some _ _ 1); [symmetry; apply Nat.add_1_r|done]
     |apply initial_value_within|exact Hv2]).
  cbn [update_value_tracked].
  rewrite (insert_new _ _ 1) by (symmetry; apply Nat.add_1_r).
  cbn [list_insert insert].
  erewrite bind_Ok by apply (cell_contents_Ok _ _ v1), lookup_first_new.
  erewrite bind_Ok by
    (apply (cell_contents_Ok _ _ v2), (lookup_new_Some _ _ 1);
     [symmetry; apply Nat.add_1_r|done]).
  reflexivity.
Qed.

Lemma trackers_independent_witness :
  ∃ h',
    ('(updater1, getter1) ← create_tracker;
     '(updater2, getter2) ← create_tracker;
     update_value updater1 150;;
     a ← get_value getter2;
     update_value updater2 7;;
     b ← get_value getter1;
     c ← get_value getter2;
     mret (a, b, c)) []
    = Ok (100, 150, 7) h'.
Proof.
  apply (trackers_independent [] 150 7); reflexivity.
Defined.

End SharedVariables.

(** ** More on the default argument *)

Section AddItemMore.
Import Scoping.

(** X15: called with a list, [add_item_bad] and [add_item_good] do the
    same in every store; when the argument is a list object they append
    the item to it in place and return it, so the default list of
    [add_item_bad] stays as it is unless it is the argument. *)
Theorem add_item_with_list (h : heap obj) self item l :
  add_item_bad self item (Some l) h = add_item_good item (Some l) h ∧
  (∀ xs, h !! l = Some (OList xs) →
     add_item_bad self item (Some l) h
     = Ok l (<[l := OList (xs ++ [item])]> h) ∧
     (target_list_default self ≠ l →
      <[l := OList (xs ++ [item])]> h !! target_list_default self
      = h !! target_list_default self)).
Proof.
  split; [reflexivity|]. intros xs Hl. split.
  - unfold add_item_bad. simpl.
    by erewrite bind_Ok by apply append_Ok, Hl.
  - intros Hne. by apply list_lookup_insert_ne.
Qed.

Lemma add_item_with_list_witness :
  add_item_bad {| target_list_default := 0%nat |} "kiwi" (Some 1%nat)
    [OList ["apple"]; OList ["fig"]]
  = Ok 1%nat [OList ["apple"]; OList ["fig"; "kiwi"]].
Proof.
  destruct (add_item_with_list [OList ["apple"]; OList ["fig"]]
              {| target_list_default := 0%nat |} "kiwi" 1%nat) as [_ H].
  destruct (H ["fig"]) as [H1 _]; [reflexivity|]. exact H1.
Defined.

(** X16: the default list of [add_item_bad] collects the items of all
    the calls made without a list, in the order of the calls, and every
    such call returns that one list. *)
Theorem add_item_bad_accumulates (h : heap obj) self xs items :
  h !! target_list_default self = Some (OList xs) →
  add_items_bad self items h
  = Ok (replicate (length items) (target_list_default self))
       (<[target_list_default self := OList (xs ++ items)]> h).
Proof.
  revert h xs. induction items as [|item items IH]; intros h xs Hd.
  - cbn. rewrite app_nil_r. by rewrite list_insert_id.
  - cbn [add_items_bad].
    rewrite (bind_Ok _ _ _ _ _ (add_item_bad_None _ _ _ item Hd)).
    erewrite bind_Ok.
    2:{ apply IH. apply list_lookup_insert_eq. by eapply lookup_lt_Some. }
    rewrite list_insert_insert_eq, <- app_assoc. reflexivity.
Qed.

Lemma add_item_bad_accumulates_witness :
  add_items_bad {| target_list_default := 0%nat |} ["apple"; "banana"]
    [OList []]
  = Ok [0%nat; 0%nat] [OList ["apple"; "banana"]].
Proof.
  apply (add_item_bad_accumulates [OList []]
           {| target_list_default := 0%nat |} [] ["apple"; "banana"]).
  reflexivity.
Defined.

End AddItemMore.

(** ** [map], [filter] and [reduce] *)

Section MapFilterReduce.
Import Lambda.

Lemma list_from_filter_filter {A} (f : A → bool) fuel xs acc :
  (length xs < fuel)%nat →
  list_from_filter fuel (py_filter f xs) acc = Some (acc ++ filter f xs).
Proof.
  revert xs acc. induction fuel as [|fuel IH]; intros xs acc Hfuel; [lia|].
  induction xs as [|x xs IHxs].
  - cbn. by rewrite app_nil_r.
  - rewrite filter_cons. cbn [list_from_filter]. unfold filter_next.
    cbn [py_filter filter_func filter_rest next_accepted].
    destruct (f x) eqn:Hx.
    + rewrite decide_True by exact I.
      change (list_from_filter fuel (py_filter f xs) (acc ++ [x])
              = Some (acc ++ x :: filter f xs)).
      rewrite IH by (simpl in Hfuel; lia). by rewrite <- app_assoc.
    + rewrite decide_False by (intros []).
      rewrite <- IHxs by (simpl in *; lia). reflexivity.
Qed.

Lemma comprehension_filter {A} (cond : A → bool) xs acc :
  fold_left (λ acc x, if cond x then acc ++ [x] else acc) xs acc
  = acc ++ filter cond xs.
Proof.
  revert acc. induction xs as [|x xs IH]; intros acc; simpl.
  - by rewrite app_nil_r.
  - rewrite IH, filter_cons. destruct (cond x) eqn:Hx.
    + rewrite decide_True by exact I. by rewrite <- app_assoc.
    + by rewrite decide_False by (intros []).
Qed.

(** X17: for every list of integers, [filter] with the lambda and the
    comprehension with the condition give the same list: the even
    numbers of the input, each as often as it occurs and in the order
    of the input. *)
Theorem filter_comprehension_equivalence (nums : list Z) :
  evens_filter nums = Some (evens_lc nums)
  ∧ sublist (evens_lc nums) nums
  ∧ (∀ x, x ∈ evens_lc nums ↔ x ∈ nums ∧ Z.even x = true)
  ∧ (∀ x, Z.even x = true →
       length (filter (λ y, y = x) (evens_lc nums))
       = length (filter (λ y, y = x) nums)).
Proof.
  unfold evens_filter, evens_lc.
  rewrite list_from_filter_filter by lia.
  rewrite comprehension_filter. cbn [app].
  split; [done|]. split; [apply sublist_filter|]. split.
  - intros x. rewrite list_elem_of_filter, Zmod_even.
    destruct (Z.even x); cbn; intuition congruence.
  - intros x Hx. rewrite list_filter_filter. f_equal.
    apply list_filter_iff. intros y. split; [tauto|].
    intros ->. split; [done|]. by rewrite Zmod_even, Hx.
Qed.

(** X18: [map] with the doubling lambda and the comprehension give the
    same list, and filtering that list for even numbers drops
    nothing. *)
Theorem doubled_all_even (nums : list Z) :
  doubled_map nums = Some (doubled_lc nums)
  ∧ Forall2 (λ x y, y = 2 * x) nums (doubled_lc nums)
  ∧ evens_filter (doubled_lc nums) = Some (doubled_lc nums)
  ∧ evens_lc (doubled_lc nums) = doubled_lc nums.
Proof.
  unfold doubled_map, doubled_lc, evens_filter, evens_lc.
  rewrite list_from_py_map by lia.
  rewrite list_from_filter_filter by lia.
  rewrite comprehension_map, comprehension_filter. cbn [app].
  assert (Hall : filter (λ x, x mod 2 =? 0) (map (λ x, x * 2) nums)
                 = map (λ x, x * 2) nums).
  { induction nums as [|x nums IH]; [done|]. cbn [map].
    rewrite filter_cons, Z_mod_mult. cbn. by rewrite IH. }
  rewrite Hall. repeat split. clear Hall.
  induction nums as [|x nums IH]; cbn [map]; constructor; [lia|done].
Qed.

Lemma fold_left_add (xs : list Z) a :
  fold_left (λ acc x, acc + x) xs a = a + fold_left (λ acc x, acc + x) xs 0.
Proof.
  revert a. induction xs as [|x xs IH]; intros a; simpl; [lia|].
  rewrite (IH (a + x)), (IH (0 + x)). lia.
Qed.

Lemma fold_left_mul (xs : list Z) a b :
  fold_left (λ acc x, acc * x) xs (a * b)
  = a * fold_left (λ acc x, acc * x) xs b.
Proof.
  revert b. induction xs as [|x xs IH]; intros b; simpl; [done|].
  by rewrite <- Z.mul_assoc, IH.
Qed.

(** X19: [reduce] with the adding lambda gives [sum(nums)] for every
    list that is not empty; for the empty list it raises [TypeError]
    where [sum] gives 0. *)
Theorem reduce_total_sum (nums : list Z) :
  total nums = (if decide (nums = []) then inl TypeError else inr (py_sum nums))
  ∧ py_sum [] = 0.
Proof.
  split; [|done]. destruct nums as [|x xs]; [done|].
  rewrite decide_False by done. unfold total, reduce, py_sum. cbn [fold_left].
  f_equal.
Qed.

(** X20: the product and the sum [reduce] computes for two lists that
    are put together are the product and the sum of what it computes
    for each. *)
Theorem reduce_concatenation (xs ys : list Z) (a b : Z) :
  (product xs = inr a → product ys = inr b →
   product (xs ++ ys) = inr (a * b))
  ∧ (total xs = inr a → total ys = inr b →
     total (xs ++ ys) = inr (a + b)).
Proof.
  unfold product, total, reduce.
  destruct xs as [|x xs]; [split; discriminate|].
  destruct ys as [|y ys]; [split; intros _; discriminate|].
  cbn [app]. split; intros [= <-] [= <-]; f_equal;
    rewrite fold_left_app; cbn [fold_left].
  - rewrite fold_left_mul. done.
  - rewrite (fold_left_add ys (_ + y)), (fold_left_add ys y). lia.
Qed.

Lemma reduce_concatenation_witness :
  product ([1; 2; 3] ++ [4; 5; 6]) = inr (6 * 120)
  ∧ total ([1; 2; 3] ++ [4; 5; 6]) = inr (6 + 15).
Proof.
  destruct (reduce_concatenation [1; 2; 3] [4; 5; 6] 6 120) as [Hp _].
  destruct (reduce_concatenation [1; 2; 3] [4; 5; 6] 6 15) as [_ Ht].
  split; [apply Hp; reflexivity | apply Ht; reflexivity].
Defined.

End MapFilterReduce.

(** ** Binding arguments to parameters *)

Section CallBinding.
Import Asterisk Format Calls.

Lemma star_kwargs_empty (names : gset string) (kw : gmap string value) :
  dom kw ⊆ names → filter (λ kv : string * value, kv.1 ∉ names) kw = ∅.
Proof.
  intros Hd. apply map_empty_filter, map_Forall_lookup.
  intros k v Hk Hn. cbn in Hn. apply Hn, Hd. by apply elem_of_dom_2 in Hk.
Qed.

Lemma star_kwargs_lookup (names : gset string) (kw : gmap string value) k :
  k ∉ names →
  filter (λ kv : string * value, kv.1 ∉ names) kw !! k = kw !! k.
Proof.
  intros Hk. destruct (kw !! k) as [v|] eqn:Hkw.
  - by apply map_lookup_filter_Some.
  - apply map_lookup_filter_None. by left.
Qed.

(** X21: the general rule for binding arguments, applied to the
    parameter list of [create_user], is the binding written out for
    that function: the two fail on the same calls and give the three
    parameters the same values; a call that is bound gives a value to
    exactly the three parameters and leaves nothing over. *)
Theorem create_user_binding (c : call) :
  bind_create_user c
  = (b ← bind create_user_signature c;
     mret (argument b "user_id", argument b "name", argument b "is_active"))
  ∧ (∀ b, bind create_user_signature c = inr b →
       dom (named b) = create_user_params
       ∧ star_args b = [] ∧ star_kwargs b = ∅).
Proof.
  assert (Hnames :
    ({["user_id"]} ∪ ({["name"]} ∪ ({["is_active"]} ∪ ∅)) : gset string)
    = create_user_params) by (unfold create_user_params; set_solver).
  unfold bind_create_user, bind. cbn -[dom]. rewrite Hnames.
  destruct (args c) as [|a rest]; cbn -[dom].
  2:{ split; [by destruct (bool_decide _)|]. intros b [=]. }
  destruct (bool_decide (dom (kwargs c) ⊆ create_user_params)) eqn:Hdom;
    cbn -[dom]; [|split; [done|intros b [=]]].
  apply bool_decide_eq_true in Hdom.
  rewrite bool_decide_true by (rewrite dom_empty_L; set_solver).
  cbn -[dom]. rewrite !(left_id_L ∅ (∪)).
  destruct (kwargs c !! "user_id") as [u|]; cbn -[dom];
    [|split; [done|intros b [=]]].
  destruct (kwargs c !! "name") as [n|]; cbn -[dom];
    [|split; [by destruct (kwargs c !! "is_active")
             |by destruct (kwargs c !! "is_active"); intros b [=]]].
  assert (Hres : ∀ a : value,
    dom (<["user_id":=u]> (<["name":=n]> (<["is_active":=a]> (∅ : gmap string value))))
    = create_user_params).
  { intros a. rewrite !dom_insert_L, dom_empty_L.
    unfold create_user_params. set_solver. }
  destruct (kwargs c !! "is_active") as [a|]; cbn -[dom].
  - split; [reflexivity|]. intros b [= <-]. cbn -[dom].
    split; [apply Hres|]. split; [done|]. by apply star_kwargs_empty.
  - split; [reflexivity|]. intros b [= <-]. cbn -[dom].
    split; [apply Hres|]. split; [done|]. by apply star_kwargs_empty.
Qed.

Lemma create_user_binding_witness :
  dom (<["name" := VStr "Alice"]> (<["user_id" := VInt 101]>
         (<["is_active" := VBool true]> (∅ : gmap string value))))
  = create_user_params.
Proof.
  destruct (create_user_binding
              {| args := [];
                 kwargs := <["name" := VStr "Alice"]>
                             (<["user_id" := VInt 101]> ∅) |}) as [_ H].
  destruct (H {| named := <["user_id" := VInt 101]>
                            (<["name" := VStr "Alice"]>
                               (<["is_active" := VBool true]> ∅));
                 star_args := []; star_kwargs := ∅ |}) as [Hd _].
  - vm_compute. reflexivity.
  - cbn [named] in Hd. rewrite <- Hd. vm_compute. reflexivity.
Defined.

Lemma lookup_given (by_position kw : gmap string value) k :
  (by_position ∪ kw) !! k
  = match by_position !! k with Some v => Some v | None => kw !! k end.
Proof. rewrite lookup_union. by destruct (by_position !! k), (kw !! k). Qed.

Ltac lookup_given :=
  repeat first
    [ rewrite lookup_given | rewrite lookup_insert_eq
    | rewrite lookup_insert_ne by done | rewrite lookup_empty ];
  cbn -[dom].





(** X24: a call of [log_event] raises [TypeError] exactly when
    [event_type] is given twice (by position and by keyword) or not at
    all; in every other call the positional arguments after the first
    are the details, [severity] is the keyword's value or 'INFO', and
    the keywords other than [event_type] and [severity] are the
    metadata. *)
Theorem log_event_binding (c : call) :
  (log_event c = inl TypeError
   ↔ (args c = [] ↔ kwargs c !! "event_type" = None))
  ∧ (∀ b, log_event c = inr b →
       star_args b = drop 1 (args c)
       ∧ argument b "severity"
         = default (VStr "INFO") (kwargs c !! "severity")
       ∧ star_kwargs b !! "event_type" = None
       ∧ star_kwargs b !! "severity" = None
       ∧ (∀ k, k ≠ "event_type" → k ≠ "severity" →
            star_kwargs b !! k = kwargs c !! k)).
Proof.
  set (names := ({["event_type"]} ∪ ({["severity"]} ∪ ∅) : gset string)).
  assert (Hstar : ∀ k,
    filter (λ kv : string * value, kv.1 ∉ names) (kwargs c) !! k
    = if decide (k = "event_type" ∨ k = "severity") then None
      else kwargs c !! k).
  { intros k. destruct (decide _) as [Hk|Hk].
    - apply map_lookup_filter_None. right. intros v _ Hn. apply Hn.
      subst names. cbn. set_solver.
    - apply star_kwargs_lookup. subst names. set_solver. }
  assert (Hrest : ∀ named0 rest,
    rest = drop 1 (args c) →
    default VNone (named0 !! "severity")
    = default (VStr "INFO") (kwargs c !! "severity") →
    ∀ b, inr {| named := named0; star_args := rest;
                star_kwargs :=
                  filter (λ kv : string * value, kv.1 ∉ names) (kwargs c) |}
         = inr (A := exn) b →
    star_args b = drop 1 (args c)
    ∧ argument b "severity" = default (VStr "INFO") (kwargs c !! "severity")
    ∧ star_kwargs b !! "event_type" = None
    ∧ star_kwargs b !! "severity" = None
    ∧ (∀ k, k ≠ "event_type" → k ≠ "severity" →
         star_kwargs b !! k = kwargs c !! k)).
  { intros named0 rest Hr Hsev b [= <-]. unfold argument. cbn -[dom].
    rewrite !Hstar. repeat split; try done.
    intros k H1 H2. rewrite Hstar.
    by rewrite decide_False by (intros [?|?]; done). }
  revert Hrest. unfold log_event, bind. cbn -[dom]. fold names.
  destruct (kwargs c !! "severity") as [sv|] eqn:Hsv;
    destruct (kwargs c !! "event_type") as [e|] eqn:He;
    destruct (args c) as [|a rest]; cbn -[dom]; intros Hrest.
  all: try (rewrite bool_decide_true by (rewrite dom_empty_L; set_solver)).
  all: try (rewrite bool_decide_false;
            [|intros Hempty;
              assert (Hin : "event_type" ∈ (∅ : gset string));
              [rewrite <- Hempty; apply elem_of_intersection; split;
               [rewrite dom_insert_L; set_solver
               |by apply elem_of_dom_2 in He]
              |set_solver]]).
  all: try (rewrite bool_decide_true;
            [|rewrite dom_insert_L, dom_empty_L;
              apply not_elem_of_dom in He; set_solver]).
  all: cbn -[dom]; lookup_given; rewrite ?He, ?Hsv; cbn -[dom].
  all: split;
    [split;
     [try done; intros _; split; intros [=]
     |try done; intros [H1 H2];
      first [by specialize (H1 eq_refl) | by specialize (H2 eq_refl)]]
    |try (intros b [=]; fail)].
  all: apply Hrest; [by rewrite ?drop_0|by lookup_given].
Qed.

Lemma log_event_binding_witness :
  star_args {| named := <["event_type" := VStr "USER_ACTION"]>
                          (<["severity" := VStr "DEBUG"]> ∅);
               star_args := [VStr "Button Clicked"; VStr "Save"];
               star_kwargs := ∅ |}
  = drop 1 [VStr "USER_ACTION"; VStr "Button Clicked"; VStr "Save"].
Proof.
  destruct (log_event_binding
              {| args := [VStr "USER_ACTION"; VStr "Button Clicked";
                          VStr "Save"];
                 kwargs := <["severity" := VStr "DEBUG"]> ∅ |}) as [_ H].
  refine (proj1 (H _ _)). vm_compute. reflexivity.
Defined.



(** X26: [describe_pet] does the same whether its two arguments come by
    position, by keyword or one each way; when neither is an integer
    of more than 4300 decimal digits it returns the sentence made of
    their texts, otherwise it raises [ValueError]; a call with one
    argument only, or with [animal_type] both by position and by
    keyword, raises [TypeError]. *)
Theorem describe_pet_passing (animal_type pet_name : value) :
  (describe_pet {| args := [animal_type];
                   kwargs := <["pet_name" := pet_name]> ∅ |}
   = describe_pet {| args := [animal_type; pet_name]; kwargs := ∅ |})
  ∧ (describe_pet {| args := [];
                     kwargs := <["pet_name" := pet_name]>
                                 (<["animal_type" := animal_type]> ∅) |}
     = describe_pet {| args := [animal_type; pet_name]; kwargs := ∅ |})
  ∧ (within_digit_limit animal_type → within_digit_limit pet_name →
     ∃ a p,
       renders animal_type a ∧ renders pet_name p
       ∧ describe_pet {| args := [animal_type; pet_name]; kwargs := ∅ |}
         = inr ("I have a " +:+ a +:+ " named " +:+ p +:+ "."))
  ∧ (¬ (within_digit_limit animal_type ∧ within_digit_limit pet_name) →
     describe_pet {| args := [animal_type; pet_name]; kwargs := ∅ |}
     = inl ValueError)
  ∧ describe_pet {| args := [animal_type]; kwargs := ∅ |} = inl TypeError
  ∧ describe_pet {| args := [pet_name];
                    kwargs := <["animal_type" := animal_type]> ∅ |}
    = inl TypeError.
Proof.
  assert (Hcall :
    describe_pet {| args := [animal_type; pet_name]; kwargs := ∅ |}
    = (a ← str_value animal_type;
       p ← str_value pet_name;
       mret ("I have a " +:+ a +:+ " named " +:+ p +:+ "."))).
  { unfold describe_pet.
    assert (Hb : bind describe_pet_signature
                   {| args := [animal_type; pet_name]; kwargs := ∅ |}
                 = inr {| named := <["animal_type" := animal_type]>
                                     (<["pet_name" := pet_name]> ∅);
                          star_args := []; star_kwargs := ∅ |})
      by (vm_compute; reflexivity).
    rewrite Hb. reflexivity. }
  assert (Hb1 : bind describe_pet_signature
                  {| args := [animal_type];
                     kwargs := <["pet_name" := pet_name]> ∅ |}
                = bind describe_pet_signature
                    {| args := [animal_type; pet_name]; kwargs := ∅ |})
    by (vm_compute; reflexivity).
  assert (Hb2 : bind describe_pet_signature
                  {| args := [];
                     kwargs := <["pet_name" := pet_name]>
                                 (<["animal_type" := animal_type]> ∅) |}
                = bind describe_pet_signature
                    {| args := [animal_type; pet_name]; kwargs := ∅ |})
    by (vm_compute; reflexivity).
  split; [by unfold describe_pet; rewrite Hb1|].
  split; [by unfold describe_pet; rewrite Hb2|].
  split; [|split; [|split]].
  - intros (a & Ha & Hra)%str_value_within (p & Hp & Hrp)%str_value_within.
    exists a, p. split; [done|]. split; [done|].
    rewrite Hcall, Ha, Hp. reflexivity.
  - intros Hnot. rewrite Hcall.
    destruct (within_digit_limit_cases animal_type) as [Ha|Ha];
      [|by rewrite (str_value_beyond _ Ha)].
    destruct (str_value_within _ Ha) as (a & -> & _). cbn [mbind exn_bind].
    destruct (within_digit_limit_cases pet_name) as [Hp|Hp];
      [|by rewrite (str_value_beyond _ Hp)].
    destruct (Hnot (conj Ha Hp)).
  - unfold describe_pet.
    assert (Hb : bind describe_pet_signature
                   {| args := [animal_type]; kwargs := ∅ |} = inl TypeError)
      by (vm_compute; reflexivity).
    by rewrite Hb.
  - unfold describe_pet.
    assert (Hb : bind describe_pet_signature
                   {| args := [pet_name];
                      kwargs := <["animal_type" := animal_type]> ∅ |}
                 = inl TypeError)
      by (vm_compute; reflexivity).
    by rewrite Hb.
Qed.

Lemma describe_pet_passing_witness :
  ∃ a p,
    renders (VStr "hamster") a ∧ renders (VStr "Harry") p
    ∧ describe_pet {| args := [VStr "hamster"; VStr "Harry"]; kwargs := ∅ |}
      = inr ("I have a " +:+ a +:+ " named " +:+ p +:+ ".").
Proof.
  destruct (describe_pet_passing (VStr "hamster") (VStr "Harry"))
    as (_ & _ & H & _).
  apply H; intros n [=].
Defined.

Lemma map_fold_insert_union (kw base : gmap string value) :
  map_fold (λ key value profile, <[key := value]> profile) base kw
  = kw ∪ base.
Proof.
  apply (map_fold_weak_ind (λ r m, r = m ∪ base)).
  - by rewrite (left_id_L ∅ (∪)).
  - intros k v m r _ ->. by rewrite insert_union_l.
Qed.

Lemma repr_value_within v :
  within_digit_limit v → repr_value v = inr tt.
Proof.
  intros Hv. destruct v as [|b|n|t]; try done.
  cbn [repr_value]. by rewrite str_within by (by apply Hv).
Qed.

Lemma repr_value_beyond v :
  ¬ within_digit_limit v → repr_value v = inl ValueError.
Proof.
  intros Hv. pose proof (str_value_beyond v Hv) as Hs.
  destruct v as [|[]|n|t]; try done. cbn in *. by rewrite Hs.
Qed.

Lemma repr_dict_outcome (d : gmap string value) :
  (map_Forall (λ _ v, within_digit_limit v) d → repr_dict d = inr tt)
  ∧ (¬ map_Forall (λ _ v, within_digit_limit v) d
     → repr_dict d = inl ValueError).
Proof.
  unfold repr_dict.
  apply (map_fold_weak_ind
           (λ r m, (map_Forall (λ _ v, within_digit_limit v) m → r = inr tt)
                   ∧ (¬ map_Forall (λ _ v, within_digit_limit v) m
                      → r = inl ValueError))).
  - split; [done|]. intros H. destruct H. apply map_Forall_empty.
  - intros k v m r Hk [IH1 IH2]. split.
    + intros [Hv Hm]%map_Forall_insert; [|done].
      rewrite (IH1 Hm). cbn [mbind exn_bind]. by apply repr_value_within.
    + intros Hnot.
      destruct (decide (map_Forall (λ _ v, within_digit_limit v) m))
        as [Hm|Hm]; [|by rewrite (IH2 Hm)].
      rewrite (IH1 Hm). cbn [mbind exn_bind]. apply repr_value_beyond.
      intros Hv. apply Hnot. by apply map_Forall_insert.
Qed.

(** X27: for a call with the two names by position, when no value of
    [user_info] is an integer of more than 4300 decimal digits, the
    profile [build_profile] returns holds every item of [user_info] and
    the two names under 'first_name' and 'last_name', where an item of
    [user_info] with one of these two keys takes the place of the
    name; when a value of [user_info] is such an integer, the call
    raises [ValueError] (in the line it prints). *)
Theorem build_profile_result (c : call) (first last : value) :
  args c = [first; last] →
  kwargs c !! "first" = None → kwargs c !! "last" = None →
  (map_Forall (λ _ v, within_digit_limit v) (kwargs c) →
   ∃ profile,
     build_profile c = inr profile
     ∧ profile
       = kwargs c ∪ <["last_name" := last]> (<["first_name" := first]> ∅)
     ∧ kwargs c ⊆ profile
     ∧ profile !! "first_name"
       = Some (default first (kwargs c !! "first_name"))
     ∧ profile !! "last_name"
       = Some (default last (kwargs c !! "last_name"))
     ∧ dom profile = dom (kwargs c) ∪ {[ "first_name"; "last_name" ]})
  ∧ (¬ map_Forall (λ _ v, within_digit_limit v) (kwargs c) →
     build_profile c = inl ValueError).
Proof.
  intros Ha Hf Hl.
  assert (Hbind :
    bind build_profile_signature c
    = inr {| named := <["first" := first]> (<["last" := last]> ∅);
             star_args := [];
             star_kwargs := kwargs c |}).
  { unfold bind. rewrite Ha. cbn -[dom].
    rewrite bool_decide_true.
    2:{ rewrite !dom_insert_L, dom_empty_L.
        apply not_elem_of_dom in Hf, Hl. set_solver. }
    cbn -[dom]. lookup_given. do 2 f_equal.
    apply map_filter_id. intros k v Hk Hin. cbn in Hin.
    set_unfold in Hin. destruct Hin as [->|[->|[]]]; congruence. }
  split.
  - intros Hall. eexists. split; [|split; [reflexivity|]].
    + unfold build_profile. rewrite Hbind. cbn [mbind exn_bind star_kwargs].
      rewrite (proj1 (repr_dict_outcome (kwargs c)) Hall).
      cbn [mbind exn_bind]. unfold argument. cbn [named]. lookup_given.
      by rewrite map_fold_insert_union.
    + split; [apply map_union_subseteq_l|].
      rewrite !lookup_union. lookup_given.
      split; [by destruct (kwargs c !! "first_name")|].
      split; [by destruct (kwargs c !! "last_name")|].
      rewrite dom_union_L, !dom_insert_L, dom_empty_L. set_solver.
  - intros Hnot. unfold build_profile. rewrite Hbind.
    cbn [mbind exn_bind star_kwargs].
    by rewrite (proj2 (repr_dict_outcome (kwargs c)) Hnot).
Qed.

Lemma build_profile_result_witness :
  ∃ profile,
    build_profile {| args := [VStr "Albert"; VStr "Einstein"];
                     kwargs := <["field" := VStr "Physics"]> ∅ |}
    = inr profile
    ∧ profile !! "first_name" = Some (VStr "Albert").
Proof.
  destruct (build_profile_result
              {| args := [VStr "Albert"; VStr "Einstein"];
                 kwargs := <["field" := VStr "Physics"]> ∅ |}
              (VStr "Albert") (VStr "Einstein"))
    as [H _]; [reflexivity..|].
  destruct H as (profile & H1 & _ & _ & H2 & _).
  - apply map_Forall_insert; [done|]. split; [by intros n|].
    apply map_Forall_empty.
  - exists profile. split; [exact H1|exact H2].
Defined.

End CallBinding.

(** ** [format_data] *)

Section FormatData.
Import Lambda Format Calls.

Lemma pop_filter (d : list (string * value)) key dflt :
  NoDup d.*1 →
  pop d key dflt
  = (default dflt ((list_to_map d : gmap string value) !! key),
     filter (λ kv, kv.1 ≠ key) d).
Proof.
  induction d as [|[k v] d IH]; intros Hnd; [done|].
  apply NoDup_cons in Hnd as [Hk Hnd]. cbn [pop].
  rewrite filter_cons. cbn [fst]. destruct (String.eqb_spec k key) as [->|Hne].
  - rewrite decide_False by (intros H; by apply H).
    rewrite list_to_map_cons, lookup_insert_eq. cbn. f_equal.
    symmetry. apply filter_all, Forall_forall.
    intros [k' v'] Hin. cbn. intros ->. apply Hk.
    apply list_elem_of_fmap. by exists (key, v').
  - rewrite decide_True by done. rewrite IH by done.
    by rewrite list_to_map_cons, lookup_insert_ne.
Qed.

(** After the two [pop]s, the loop runs over the data items with the
    prefix of the call, and the parts are joined with its separator. *)
Lemma format_data_options (kwargs : list (string * value)) :
  NoDup kwargs.*1 →
  format_data kwargs
  = (formatted_parts ←
       format_parts (option_value kwargs "prefix" (VStr ""))
         (data_items kwargs) [];
     join (option_value kwargs "separator" (VStr ", ")) formatted_parts).
Proof.
  intros Hnd. unfold format_data, option_value, data_items.
  rewrite pop_filter by done. rewrite pop_filter.
  2:{ eapply sublist_NoDup; [exact Hnd|].
      apply fmap_sublist, sublist_filter. }
  rewrite list_filter_filter.
  assert (Hsep :
    (list_to_map (filter (λ kv : string * value, kv.1 ≠ "prefix") kwargs)
       : gmap string value) !! "separator"
    = (list_to_map kwargs : gmap string value) !! "separator").
  { clear Hnd. induction kwargs as [|[k v] d IH]; [done|].
    rewrite filter_cons. cbn [fst]. destruct (decide (k ≠ "prefix")).
    + rewrite !list_to_map_cons.
      destruct (decide (k = "separator")) as [->|].
      * by rewrite !lookup_insert_eq.
      * by rewrite !lookup_insert_ne.
    + rewrite list_to_map_cons, lookup_insert_ne; [done|].
      intros ->. by apply n. }
  rewrite Hsep.
  assert (Hdata :
    filter (λ kv : string * value, kv.1 ≠ "separator" ∧ kv.1 ≠ "prefix") kwargs
    = filter (λ kv : string * value, kv.1 ≠ "prefix" ∧ kv.1 ≠ "separator")
        kwargs).
  { apply list_filter_iff. intros [k v]. cbn. tauto. }
  by rewrite Hdata.
Qed.

Lemma format_parts_within prefix (d : list (string * value)) acc :
  (d ≠ [] → within_digit_limit prefix) →
  Forall (λ kv, within_digit_limit kv.2) d →
  ∃ parts,
    format_parts prefix d acc = inr (acc ++ parts)
    ∧ Forall2
        (λ kv part, ∃ p v,
           renders prefix p ∧ renders kv.2 v
           ∧ part = p +:+ kv.1 +:+ "=" +:+ v)
        d parts.
Proof.
  intros Hp Hd. revert acc.
  induction Hd as [|[k v] d Hv _ IH]; intros acc.
  - exists []. split; [by rewrite app_nil_r|constructor].
  - destruct (str_value_within prefix (Hp ltac:(done))) as (p & Hsp & Hrp).
    destruct (str_value_within v Hv) as (t & Hst & Hrt).
    destruct (IH (λ _, Hp ltac:(done)) (acc ++ [p +:+ k +:+ "=" +:+ t]))
      as (parts & Hparts & Hall).
    exists ((p +:+ k +:+ "=" +:+ t) :: parts). split.
    + cbn [format_parts]. rewrite Hsp, Hst. cbn [mbind exn_bind].
      by rewrite Hparts, <- app_assoc.
    + constructor; [|done]. by exists p, t.
Qed.

Lemma format_parts_beyond prefix (d : list (string * value)) acc :
  d ≠ [] →
  ¬ within_digit_limit prefix
  ∨ Exists (λ kv, ¬ within_digit_limit kv.2) d →
  format_parts prefix d acc = inl ValueError.
Proof.
  revert acc. induction d as [|[k v] d IH]; intros acc Hne Hbad; [done|].
  cbn [format_parts].
  destruct (within_digit_limit_cases prefix) as [Hp|Hp];
    [|by rewrite (str_value_beyond _ Hp)].
  destruct (str_value_within _ Hp) as (p & -> & _). cbn [mbind exn_bind].
  destruct (within_digit_limit_cases v) as [Hv|Hv];
    [|by rewrite (str_value_beyond _ Hv)].
  destruct (str_value_within _ Hv) as (t & -> & _). cbn [mbind exn_bind].
  destruct Hbad as [Hbad|Hbad]; [destruct (Hbad Hp)|].
  apply Exists_cons in Hbad as [Hbad|Hbad]; [destruct (Hbad Hv)|].
  apply IH; [|by right]. intros ->. by apply Exists_nil in Hbad.
Qed.

(** X28: [format_data] treats the keys 'prefix' and 'separator' as
    options wherever they stand among the keywords.  When the separator
    is a string (', ' when there is none) and no value to format is an
    integer of more than 4300 decimal digits, the result is the
    concatenation, with the separator between them, of one part
    [prefix key=value] for each other item, in the order of the call
    (the empty string when there is no other item).  With another item
    and such an integer as its value or as prefix, the call raises
    [ValueError]; otherwise, with a separator that is no string, it
    raises [AttributeError]. *)
Theorem format_data_result (kwargs : list (string * value)) :
  NoDup kwargs.*1 →
  (∀ sep,
     option_value kwargs "separator" (VStr ", ") = VStr sep →
     (data_items kwargs ≠ [] →
      within_digit_limit (option_value kwargs "prefix" (VStr ""))) →
     Forall (λ kv, within_digit_limit kv.2) (data_items kwargs) →
     ∃ parts,
       format_data kwargs = inr (String.concat sep parts)
       ∧ Forall2
           (λ kv part, ∃ p v,
              renders (option_value kwargs "prefix" (VStr "")) p
              ∧ renders kv.2 v
              ∧ part = p +:+ kv.1 +:+ "=" +:+ v)
           (data_items kwargs) parts)
  ∧ (data_items kwargs ≠ [] →
     ¬ within_digit_limit (option_value kwargs "prefix" (VStr ""))
     ∨ Exists (λ kv, ¬ within_digit_limit kv.2) (data_items kwargs) →
     format_data kwargs = inl ValueError)
  ∧ ((∀ sep, option_value kwargs "separator" (VStr ", ") ≠ VStr sep) →
     (data_items kwargs ≠ [] →
      within_digit_limit (option_value kwargs "prefix" (VStr ""))) →
     Forall (λ kv, within_digit_limit kv.2) (data_items kwargs) →
     format_data kwargs = inl AttributeError).
Proof.
  intros Hnd. rewrite (format_data_options kwargs Hnd).
  split; [|split].
  - intros sep Hsep Hp Hd.
    destruct (format_parts_within _ _ [] Hp Hd) as (parts & -> & Hall).
    exists parts. split; [|done].
    cbn [mbind exn_bind app]. by rewrite Hsep.
  - intros Hne Hbad. by rewrite (format_parts_beyond _ _ [] Hne Hbad).
  - intros Hsep Hp Hd.
    destruct (format_parts_within _ _ [] Hp Hd) as (parts & -> & _).
    cbn [mbind exn_bind app].
    destruct (option_value kwargs "separator" (VStr ", ")) as [|b|n|sep];
      try done.
    by destruct (Hsep sep).
Qed.

Lemma format_data_result_witness :
  ∃ parts,
    format_data [("user", VStr "admin"); ("id", VInt 123);
                 ("prefix", VStr "--"); ("separator", VStr " | ")]
    = inr (String.concat " | " parts)
    ∧ Forall2
        (λ kv part, ∃ p v,
           renders (VStr "--") p ∧ renders kv.2 v
           ∧ part = p +:+ kv.1 +:+ "=" +:+ v)
        [("user", VStr "admin"); ("id", VInt 123)] parts.
Proof.
  destruct (format_data_result
              [("user", VStr "admin"); ("id", VInt 123);
               ("prefix", VStr "--"); ("separator", VStr " | ")])
    as [H _].
  - apply (bool_decide_eq_true_1
             (NoDup ["user"; "id"; "prefix"; "separator"])).
    vm_compute. reflexivity.
  - apply (H " | ").
    + reflexivity.
    + intros _ n [=].
    + repeat constructor; [intros n [=]|intros n [= <-]; reflexivity].
Defined.

(** The second test call of the cell. *)
Example format_data_custom_format :
  format_data [("user", VStr "admin"); ("id", VInt 123);
               ("prefix", VStr "--"); ("separator", VStr " | ")]
  = inr "--user=admin | --id=123".
Proof. vm_compute. reflexivity. Qed.

End FormatData.

(** ** Lists passed to functions *)

Section ListArguments.
Import Passing.

Lemma passing_append_Ok (h : heap obj) l xs x :
  h !! l = Some xs → append l x h = Ok tt (<[l := xs ++ [x]]> h).
Proof.
  intros Hl. unfold append.
  rewrite (bind_Ok _ _ _ _ _ (read_Ok _ _ _ Hl)).
  by rewrite (write_Ok _ _ _ _ Hl).
Qed.

(** X29: a function that appends to its list parameter, or extends it
    with [+=], changes the list of the caller in place and no other
    object; a function that assigns a new list to the parameter leaves
    every object of the caller as it was and works on new objects:
    [bar] makes the list [4, 5] and the sum of the caller's list and
    it, the rebinding [foo] makes the list [50, 60, 70] and appends 50
    to it. *)
Theorem list_argument_mutation (h : heap obj) (a_list : loc) (xs : list value) :
  h !! a_list = Some xs →
  foo_append a_list h = Ok tt (<[a_list := xs ++ [VInt 4]]> h)
  ∧ (∃ h', foo_iadd a_list h = Ok tt h'
           ∧ h' = <[a_list := xs ++ [VInt 4; VInt 5]]> h ++ [[VInt 4; VInt 5]]
           ∧ h' !! a_list = Some (xs ++ [VInt 4; VInt 5])
           ∧ ∀ l o, l ≠ a_list → h !! l = Some o → h' !! l = Some o)
  ∧ (∃ h', bar a_list h = Ok tt h'
           ∧ h' = h ++ [[VInt 4; VInt 5]; xs ++ [VInt 4; VInt 5]]
           ∧ unchanged h h'
           ∧ xs ++ [VInt 4; VInt 5] ∈ drop (length h) h')
  ∧ (∃ h', foo_rebind a_list h = Ok tt h'
           ∧ h' = h ++ [[VInt 50; VInt 60; VInt 70; VInt 50]]
           ∧ unchanged h h'
           ∧ h' !! length h = Some [VInt 50; VInt 60; VInt 70; VInt 50]).
Proof.
  intros Hl. split; [by apply passing_append_Ok|].
  assert (Hlt : (a_list < length h)%nat) by by eapply lookup_lt_Some.
  split; [|split].
  - eexists. split; [|split; [|split]].
    + unfold foo_iadd, extend, alloc.
      unfold mbind at 1, M_bind at 1.
      erewrite bind_Ok by apply read_Ok, lookup_first_new.
      erewrite bind_Ok by (apply read_Ok, lookup_old, Hl).
      erewrite write_Ok by (apply lookup_old, Hl). reflexivity.
    + by apply insert_app_l.
    + apply list_lookup_insert_eq. rewrite length_app.
      apply Nat.lt_lt_add_r, Hlt.
    + intros l o Hne Ho. rewrite list_lookup_insert_ne by done.
      by apply lookup_old.
  - eexists. split; [|split; [|split]].
    + unfold bar, add, alloc.
      unfold mbind at 1, M_bind at 1.
      erewrite bind_Ok.
      2:{ erewrite bind_Ok by (apply read_Ok, lookup_old, Hl).
          erewrite bind_Ok by apply read_Ok, lookup_first_new.
          reflexivity. }
      reflexivity.
    + by rewrite <- app_assoc.
    + rewrite <- app_assoc. apply unchanged_app.
    + rewrite <- app_assoc, drop_app_length. set_solver.
  - eexists. split; [|split; [|split]].
    + unfold foo_rebind, alloc.
      unfold mbind at 1, M_bind at 1.
      erewrite passing_append_Ok by apply lookup_first_new.
      rewrite insert_first_new. reflexivity.
    + reflexivity.
    + apply unchanged_app.
    + apply lookup_first_new.
Qed.

Lemma list_argument_mutation_witness :
  foo_append 0%nat [[VInt 1; VInt 2; VInt 3]]
  = Ok tt (<[0%nat := [VInt 1; VInt 2; VInt 3] ++ [VInt 4]]>
             [[VInt 1; VInt 2; VInt 3]]).
Proof.
  refine (proj1 (list_argument_mutation [[VInt 1; VInt 2; VInt 3]] 0%nat
                   [VInt 1; VInt 2; VInt 3] _)).
  reflexivity.
Defined.

End ListArguments.

(** ** Grouping by key *)

Section Grouping.
Import Itertools.

Lemma groupby_runs {A K} `{EqDecision K} (key : A → K) (l : list A) :
  concat (groupby key l).*2 = l
  ∧ Forall (λ kg, kg.2 ≠ [] ∧ Forall (λ x, key x = kg.1) kg.2) (groupby key l)
  ∧ (∀ i k1 k2, (groupby key l).*1 !! i = Some k1 →
       (groupby key l).*1 !! S i = Some k2 → k1 ≠ k2)
  ∧ head (groupby key l).*1 = key <$> head l.
Proof.
  induction l as [|x l (IH1 & IH2 & IH3 & IH4)]; [by repeat split|].
  cbn [groupby]. destruct (groupby key l) as [|[k g] gs] eqn:Hg.
  - cbn in IH1. subst l. repeat split; [|by intros [|i]].
    repeat constructor. done.
  - destruct (decide (key x = k)) as [Hk|Hk].
    + repeat split.
      * cbn in *. by rewrite IH1.
      * apply Forall_cons in IH2 as [[_ Hg2] Hgs]. cbn in *.
        constructor; [|done]. split; [done|]. by constructor.
      * exact IH3.
      * cbn. by rewrite Hk.
    + repeat split.
      * cbn in *. by rewrite IH1.
      * constructor; [|done]. cbn. split; [done|]. by constructor.
      * intros [|i] k1 k2; cbn.
        -- by intros [= <-] [= <-].
        -- apply IH3.
Qed.

(** X30: grouping a list of integers with [get_key] cuts the list into
    runs: the groups put together are the list, no group is empty, all
    numbers of a group have the key of the group, and the keys of the
    groups alternate between 'odd' and 'even', so a key comes again
    when the list is not sorted by key. *)
Theorem groupby_get_key (numbers : list Z) :
  concat (groupby get_key numbers).*2 = numbers
  ∧ Forall (λ kg, kg.2 ≠ [] ∧ Forall (λ x, get_key x = kg.1) kg.2)
      (groupby get_key numbers)
  ∧ (∀ i k1 k2, (groupby get_key numbers).*1 !! i = Some k1 →
       (groupby get_key numbers).*1 !! S i = Some k2 →
       (k1 = "even" ∧ k2 = "odd") ∨ (k1 = "odd" ∧ k2 = "even"))
  ∧ (length (groupby get_key numbers) ≤ length numbers)%nat.
Proof.
  destruct (groupby_runs get_key numbers) as (H1 & H2 & H3 & _).
  split; [done|]. split; [done|]. split.
  - intros i k1 k2 Hk1 Hk2. specialize (H3 i k1 k2 Hk1 Hk2).
    assert (Hkeys : ∀ k, k ∈ (groupby get_key numbers).*1 →
                         k = "even" ∨ k = "odd").
    { intros k Hk. apply list_elem_of_fmap in Hk as ([k' g] & -> & Hin).
      rewrite Forall_forall in H2. destruct (H2 _ Hin) as [Hne Hall].
      cbn in *. destruct g as [|x g]; [done|].
      apply Forall_cons in Hall as [<- _]. unfold get_key.
      destruct (_ =? _); auto. }
    destruct (Hkeys k1) as [->| ->]; [by eapply list_elem_of_lookup_2|..];
      (destruct (Hkeys k2) as [->| ->]; [by eapply list_elem_of_lookup_2|..]);
      auto; done.
  - rewrite <- H1 at 2. clear H1 H3.
    induction H2 as [|[k g] gs [Hne _] _ IH]; [done|].
    cbn in *. rewrite length_app. destruct g; [done|]. cbn. lia.
Qed.

End Grouping.
